(** * chromedp: waiting, racing and navigation helpers

    A shallow embedding of [wait.go] ([WaitUntil], [IntervalRun],
    [WaitOneOf]), of the navigation wait of [nav.go] ([waitNavEvent] and its
    options) and of the constructors that guard a required output pointer.

    The Go runtime is modelled as far as the code relies on it:
    - a context is a scope with a cancellation instant and a cause;
    - a timer delivers at a known instant of a logical clock (nanoseconds);
    - a [select] takes the case that becomes ready first and asks an oracle
      when two cases are ready at the same instant;
    - goroutines are interleaved by a scheduler, one labelled step at a time. *)

From Stdlib Require Import ZArith String Lia.
From stdpp Require Import base list.

Open Scope Z_scope.

(* ===================================================================== *)
(** ** Errors, panics and pointers *)

(** The two errors a context reports once it is done
    ([context.Canceled], [context.DeadlineExceeded]). *)
Inductive ctxErr := Canceled | DeadlineExceeded.

(** Go [error] values, compared by identity as [err == ErrContinueWait]
    does.  The nil error is [None] of [option error].

    [ErrContinueWait] is declared in wait.go.
    Modelled from the spec: [ErrNotMatch], the "does not match" marker that
    nav.go returns; its declaration is not part of the sources, the spec
    describes it as a process-wide singleton distinct from every other
    outcome. *)
Inductive error :=
| ErrContinueWait
| ErrNotMatch
| ctxError (e : ctxErr)
| errorsNew (msg : string).

Definition error_eqb (a b : option error) : bool :=
  match a, b with
  | None, None => true
  | Some ErrContinueWait, Some ErrContinueWait => true
  | Some ErrNotMatch, Some ErrNotMatch => true
  | Some (ctxError Canceled), Some (ctxError Canceled) => true
  | Some (ctxError DeadlineExceeded), Some (ctxError DeadlineExceeded) => true
  | Some (errorsNew m), Some (errorsNew n) => String.eqb m n
  | _, _ => false
  end.

(** What calling a constructor gives: the value it returns, or the panic
    that aborts the call. *)
Inductive construct (A : Type) :=
| Built (a : A)
| Panic (msg : string).
Arguments Built {A} a.
Arguments Panic {A} msg.

(** A Go pointer: nil, or the address of a cell. *)
Definition pointer := option nat.

(** Memory of [int] cells, for the [waitIdx] out slot. *)
Definition heap := nat -> Z.

Definition store (h : heap) (p : nat) (v : Z) : heap :=
  fun q => if Nat.eqb q p then v else h q.

(* ===================================================================== *)
(** ** Constructors with a required output pointer (nav.go, cookies) *)

(** The closures the constructors return, with the pointers they capture.
    Their bodies talk to the browser and are not modelled. *)
Inductive protocolAction :=
| navigationEntriesFunc (currentIndex entries : nat)
| captureScreenshotFunc (res : nat)
| getCookiesFunc (cookies : nat).

Definition NavigationEntries (currentIndex entries : pointer)
  : construct protocolAction :=
  match currentIndex, entries with
  | Some c, Some e => Built (navigationEntriesFunc c e)
  | _, _ => Panic "currentIndex and entries cannot be nil"
  end.

Definition CaptureScreenshot (res : pointer) : construct protocolAction :=
  match res with
  | None => Panic "res cannot be nil"
  | Some r => Built (captureScreenshotFunc r)
  end.

Definition GetCookies (cookies : pointer) : construct protocolAction :=
  match cookies with
  | None => Panic "cookies cannot be nil"
  | Some c => Built (getCookiesFunc c)
  end.

(** [Location] and [Title] hand the checked pointer to [EvaluateAsDevTools],
    which is declared outside the sources and is taken as a parameter
    [eval]: it receives the script and the (non-nil) address. *)
Definition Location {A : Type} (eval : string -> nat -> construct A)
  (urlstr : pointer) : construct A :=
  match urlstr with
  | None => Panic "urlstr cannot be nil"
  | Some u => eval "document.location.toString()"%string u
  end.

Definition Title {A : Type} (eval : string -> nat -> construct A)
  (title : pointer) : construct A :=
  match title with
  | None => Panic "title cannot be nil"
  | Some t => eval "document.title"%string t
  end.

(* ===================================================================== *)
(** ** Scopes, timers and select on a logical clock *)

Definition Duration := Z.
Definition Millisecond : Duration := 1000000.

(** A context as the loops see it: done from [cancelAt] on (never, when
    [None]), and then reporting [cause]. *)
Record Scope := { cancelAt : option Z; cause : ctxErr }.

(** Is [ctx.Done()] ready at instant [t]? *)
Definition isDone (ctx : Scope) (t : Z) : bool :=
  match cancelAt ctx with
  | Some c => c <=? t
  | None => false
  end.

(** [ctx.Err()] at instant [t]. *)
Definition Err (ctx : Scope) (t : Z) : option error :=
  if isDone ctx t then Some (ctxError (cause ctx)) else None.

(** [time.NewTimer(d)] armed at [t]: the instant its channel delivers;
    a non-positive duration delivers at once. *)
Definition NewTimer (d : Duration) (t : Z) : Z := t + Z.max 0 d.

Inductive selected := caseDone | caseTimer.

(** [select { case <-ctx.Done(): ... case <-tm.C: ... }] entered at [t] with
    a timer delivering at [tm]: the case taken and the instant it is taken.
    The goroutine sleeps until the first case is ready; when both are ready
    at the same instant the runtime's choice is the oracle's [tie]. *)
Definition selectDoneTimer (ctx : Scope) (tm : Z) (tie : selected) (t : Z)
  : selected * Z :=
  let timerAt := Z.max tm t in
  match cancelAt ctx with
  | None => (caseTimer, timerAt)
  | Some c =>
      let doneAt := Z.max c t in
      if doneAt <? timerAt then (caseDone, doneAt)
      else if timerAt <? doneAt then (caseTimer, timerAt)
      else (tie, timerAt)
  end.

(** A function or action the loops call and cannot look into: what its
    k-th invocation (counted from 0) returns and how long it runs. *)
Record Callee := { result : nat -> option error; cost : nat -> Duration }.

(** What a loop has done so far: the clock, the instants at which it
    invoked its callee (latest first) and how many selects it has run. *)
Record World := { now : Z; invoked : list Z; selects : nat }.

Definition start (t : Z) : World := {| now := t; invoked := []; selects := 0 |}.

(** The callee is entered at [t]: its invocation number is the number of
    earlier invocations, and the clock moves on by its running time. *)
Definition invoke (c : Callee) (t : Z) (w : World) : option error * World :=
  let k := length (invoked w) in
  (result c k,
   {| now := t + Z.max 0 (cost c k);
      invoked := t :: invoked w;
      selects := S (selects w) |}).

Definition cancelled (t : Z) (w : World) : World :=
  {| now := t; invoked := invoked w; selects := S (selects w) |}.

(* ===================================================================== *)
(** ** wait.go: WaitUntil and IntervalRun *)

(** The body of the action [WaitUntil(f)] returns; [fuel] bounds the number
    of iterations of its [for]. [None]: still looping when the fuel is out. *)
Fixpoint WaitUntil (f : Callee) (ctx : Scope) (ties : nat -> selected)
  (fuel : nat) (w : World) : option (option error * World) :=
  match fuel with
  | O => None
  | S fuel' =>
      let tm := NewTimer (50 * Millisecond) (now w) in
      match selectDoneTimer ctx tm (ties (selects w)) (now w) with
      | (caseDone, t) => Some (Err ctx t, cancelled t w)
      | (caseTimer, t) =>
          let (err, w') := invoke f t w in
          if error_eqb err (Some ErrContinueWait)
          then WaitUntil f ctx ties fuel' w'
          else Some (err, w')
      end
  end.

(** The [for] of [IntervalRun], with the timer [tm] armed before it. *)
Fixpoint IntervalRun_loop (interval : Duration) (action : Callee)
  (ctx : Scope) (ties : nat -> selected) (fuel : nat) (tm : Z) (w : World)
  : option (option error * World) :=
  match fuel with
  | O => None
  | S fuel' =>
      match selectDoneTimer ctx tm (ties (selects w)) (now w) with
      | (caseDone, t) => Some (Err ctx t, cancelled t w)
      | (caseTimer, t) =>
          let (err, w') := invoke action t w in
          match err with
          | Some e => Some (Some e, w')
          | None =>
              IntervalRun_loop interval action ctx ties fuel'
                (NewTimer interval (now w')) w'
          end
      end
  end.

Definition IntervalRun (interval : Duration) (action : Callee)
  (ctx : Scope) (ties : nat -> selected) (fuel : nat) (w : World)
  : option (option error * World) :=
  IntervalRun_loop interval action ctx ties fuel
    (NewTimer interval (now w)) w.

(* ===================================================================== *)
(** ** wait.go: WaitOneOf *)

(** An action as the race sees it: asked under the current state of the
    derived context ([None]: not done), it has either not returned yet
    ([None]) or returns an error or nil. *)
Definition Racer := option ctxErr -> option (option error).

(** The closure [WaitOneOf] returns, with what it captures. *)
Record raceFunc := { waitIdx : pointer; actions : list Racer }.

Definition WaitOneOf (waitIdx : pointer) (actions : list Racer)
  : construct raceFunc :=
  if Nat.eqb (length actions) 0
  then Panic "actions cannot be empty"
  else Built {| waitIdx := waitIdx; actions := actions |}.

(** One goroutine [go func(idx int)]: inside [action.Do], blocked in its
    select with the error to send, past the select with [wg.Done] still
    deferred, or gone. *)
Inductive executor :=
| Running
| Sending (err : option error)
| Leaving
| Exited.

(** The goroutine that runs the closure: in the launch loop at [idx], blocked
    in its select, past it with the value to return and the deferred
    [cancel()] pending, in the deferred [wg.Wait()], or returned. *)
Inductive coordinator :=
| Launching (idx : nat)
| Selecting
| Unwinding (r : option error)
| Joining (r : option error)
| Returned (r : option error).

Record race := {
  parent : option ctxErr;       (* Err() of the caller's context *)
  derived : option ctxErr;      (* Err() of the context.WithCancel child *)
  wg : nat;                     (* the WaitGroup counter *)
  executors : list executor;    (* the goroutines launched so far, by idx *)
  coord : coordinator;
  mem : heap
}.

(** [context.WithCancel] on a parent that is already done gives a child
    that is done with the same error. *)
Definition enter (ctx : option ctxErr) (h : heap) : race :=
  {| parent := ctx; derived := ctx; wg := 0; executors := [];
     coord := Launching 0; mem := h |}.

(** Cancelling keeps the first error. *)
Definition cancelWith (e : ctxErr) (c : option ctxErr) : option ctxErr :=
  match c with
  | None => Some e
  | Some _ => c
  end.

(** The [case r := <-retC] branch on [ret{idx, err}]. *)
Definition received (waitIdx : pointer) (idx : nat) (err : option error)
  (h : heap) : option error * heap :=
  match err with
  | Some e => (Some e, h)
  | None =>
      (None,
       match waitIdx with
       | Some p => store h p (Z.of_nat idx)
       | None => h
       end)
  end.

Inductive label :=
| Spawn                                (* wg.Add(1); go func(idx) *)
| LoopExit                             (* idx < len(actions) is false *)
| ActionReturns (k : nat)              (* action.Do(ctx) returns *)
| Deliver (k : nat) (err : option error) (* send and receive on retC meet *)
| Abandon (k : nat)                    (* executor takes <-ctx.Done() *)
| WgDone (k : nat)                     (* deferred wg.Done() *)
| TakeDone                             (* coordinator takes <-ctx.Done() *)
| CancelParent (e : ctxErr)            (* the caller's scope ends *)
| DeferCancel                          (* deferred cancel() *)
| DeferWait.                           (* deferred wg.Wait() returns *)

Definition setExecutor (k : nat) (x : executor) (s : race) : race :=
  {| parent := parent s; derived := derived s; wg := wg s;
     executors := <[k := x]> (executors s); coord := coord s; mem := mem s |}.

Definition setCoord (c : coordinator) (s : race) : race :=
  {| parent := parent s; derived := derived s; wg := wg s;
     executors := executors s; coord := c; mem := mem s |}.

(** One step of the scheduler; [None] when the step is not enabled. *)
Definition step (fn : raceFunc) (l : label) (s : race) : option race :=
  match l with
  | Spawn =>
      match coord s with
      | Launching idx =>
          if (idx <? length (actions fn))%nat
          then Some {| parent := parent s; derived := derived s;
                       wg := S (wg s);
                       executors := executors s ++ [Running];
                       coord := Launching (S idx); mem := mem s |}
          else None
      | _ => None
      end
  | LoopExit =>
      match coord s with
      | Launching idx =>
          if (idx <? length (actions fn))%nat then None
          else Some (setCoord Selecting s)
      | _ => None
      end
  | ActionReturns k =>
      match executors s !! k, actions fn !! k with
      | Some Running, Some action =>
          match action (derived s) with
          | Some err => Some (setExecutor k (Sending err) s)
          | None => None
          end
      | _, _ => None
      end
  | Deliver k err =>
      match coord s, executors s !! k with
      | Selecting, Some (Sending err') =>
          if error_eqb err err'
          then
            let (r, h) := received (waitIdx fn) k err' (mem s) in
            Some {| parent := parent s; derived := derived s; wg := wg s;
                    executors := <[k := Leaving]> (executors s);
                    coord := Unwinding r; mem := h |}
          else None
      | _, _ => None
      end
  | Abandon k =>
      match executors s !! k, derived s with
      | Some (Sending _), Some _ => Some (setExecutor k Leaving s)
      | _, _ => None
      end
  | WgDone k =>
      match executors s !! k with
      | Some Leaving =>
          Some {| parent := parent s; derived := derived s;
                  wg := pred (wg s);
                  executors := <[k := Exited]> (executors s);
                  coord := coord s; mem := mem s |}
      | _ => None
      end
  | TakeDone =>
      match coord s, derived s with
      | Selecting, Some e => Some (setCoord (Unwinding (Some (ctxError e))) s)
      | _, _ => None
      end
  | CancelParent e =>
      match parent s with
      | None =>
          Some {| parent := Some e; derived := cancelWith e (derived s);
                  wg := wg s; executors := executors s;
                  coord := coord s; mem := mem s |}
      | Some _ => None
      end
  | DeferCancel =>
      match coord s with
      | Unwinding r =>
          Some {| parent := parent s;
                  derived := cancelWith Canceled (derived s);
                  wg := wg s; executors := executors s;
                  coord := Joining r; mem := mem s |}
      | _ => None
      end
  | DeferWait =>
      match coord s with
      | Joining r =>
          if Nat.eqb (wg s) 0 then Some (setCoord (Returned r) s) else None
      | _ => None
      end
  end.

(** A schedule runs when each of its steps is enabled in turn. *)
Fixpoint run (fn : raceFunc) (tr : list label) (s : race) : option race :=
  match tr with
  | [] => Some s
  | l :: tr' =>
      match step fn l s with
      | Some s' => run fn tr' s'
      | None => None
      end
  end.

(** The outcomes handed over on [retC] along a schedule, in order. *)
Fixpoint deliveries (tr : list label) : list (nat * option error) :=
  match tr with
  | [] => []
  | Deliver k err :: tr' => (k, err) :: deliveries tr'
  | _ :: tr' => deliveries tr'
  end.

Definition isExited (x : executor) : bool :=
  match x with
  | Exited => true
  | _ => false
  end.

(** Goroutines that have not yet run their deferred [wg.Done()]. *)
Fixpoint pending (l : list executor) : nat :=
  match l with
  | [] => 0
  | x :: l' => ((if isExited x then 0 else 1) + pending l')%nat
  end.

(* ===================================================================== *)
(** ** nav.go: navigation options and waitNavEvent *)

(** The events the predicates of nav.go tell apart by their dynamic type. *)
Inductive event :=
| EventLoadEventFired
| EventFrameNavigated
| EventOther (name : string).

(** [func(ctx context.Context, ev interface{}) error], reading the state of
    the context it is given. *)
Definition waitFunc := option ctxErr -> event -> option error.

(** [wait] is a func value: [None] is nil. *)
Record navOptions := { wait : option waitFunc }.

(** A func taking a pointer to navOptions: the update it makes to the
    options it is given. *)
Definition NavigateOption := navOptions -> navOptions.



Definition loadEventFired : waitFunc :=
  fun _ ev =>
    match ev with
    | EventLoadEventFired => None
    | _ => Some ErrNotMatch
    end.


Definition NavigateWaitEventLoadEventFired : NavigateOption :=
  fun _ => {| wait := Some loadEventFired |}.


(** The first lines of [waitNavEvent]: the zero value, the default, then
    every option in order. *)
Definition navOptionsOf (opts : list NavigateOption) : navOptions :=
  fold_left (fun options o => o options) opts
    (NavigateWaitEventLoadEventFired {| wait := None |}).

(** [ch := make(chan struct{})], and whether it has been closed. *)
Inductive chanState := chanOpen | chanClosed.

(** The caller of [waitNavEvent]: blocked in its select, or returned. *)
Inductive waiter :=
| Blocked
| Resumed (r : option error).

Record navState := {
  scope : option ctxErr;          (* Err() of ctx *)
  lctx : option ctxErr;           (* Err() of the WithCancel child *)
  ch : chanState;
  closes : nat;                   (* how many times close(ch) has run *)
  listener : option waitFunc;     (* the predicate of the registered callback *)
  caller : waiter
}.

(** A step of the navigation wait: the next state, a step that is not
    enabled, or a panic of the goroutine that takes it. *)
Inductive stepResult :=
| Next (s : navState)
| NotEnabled
| Panics (msg : string).

(** [waitNavEvent] up to its select. With a nil predicate it returns at
    once and registers nothing. *)
Definition waitNavEvent (ctx : option ctxErr) (opts : list NavigateOption)
  : navState :=
  match wait (navOptionsOf opts) with
  | None =>
      {| scope := ctx; lctx := None; ch := chanOpen; closes := 0;
         listener := None; caller := Resumed None |}
  | Some w =>
      {| scope := ctx; lctx := ctx; ch := chanOpen; closes := 0;
         listener := Some w; caller := Blocked |}
  end.

(** The callback handed to [ListenTarget]:
    [if err := options.wait(ctx, ev); err == nil { cancel(); close(ch) }].
    Closing a closed channel panics. *)
Definition callback (w : waitFunc) (ev : event) (s : navState) : stepResult :=
  match w (scope s) ev with
  | None =>
      match ch s with
      | chanOpen =>
          Next {| scope := scope s; lctx := cancelWith Canceled (lctx s);
                  ch := chanClosed; closes := S (closes s);
                  listener := listener s; caller := caller s |}
      | chanClosed => Panics "close of closed channel"
      end
  | Some _ => Next s
  end.


(** Modelled from the spec: [ListenTarget], which is not part of the
    sources.  "Given a cancellable scope and a callback, invokes the callback
    once per asynchronous event until the scope is cancelled": an event that
    arrives when the listener's scope [lctx] is done is not handed to the
    callback. *)
Definition ListenTarget_dispatch (ev : event) (s : navState) : stepResult :=
  match listener s, lctx s with
  | Some w, None => callback w ev s
  | _, _ => Next s
  end.

Inductive navLabel :=
| Fire (ev : event)              (* the target publishes an event *)
| EndScope (e : ctxErr)          (* the caller's scope ends *)
| TakeCh                         (* the caller takes <-ch *)
| TakeCtxDone.                   (* the caller takes <-ctx.Done() *)

Definition navStep (l : navLabel) (s : navState) : stepResult :=
  match l with
  | Fire ev => ListenTarget_dispatch ev s
  | EndScope e =>
      match scope s with
      | None =>
          Next {| scope := Some e;
                  lctx := match listener s with
                          | Some _ => cancelWith e (lctx s)
                          | None => lctx s
                          end;
                  ch := ch s; closes := closes s;
                  listener := listener s; caller := caller s |}
      | Some _ => NotEnabled
      end
  | TakeCh =>
      match caller s, ch s with
      | Blocked, chanClosed =>
          Next {| scope := scope s; lctx := lctx s; ch := ch s;
                  closes := closes s; listener := listener s;
                  caller := Resumed None |}
      | _, _ => NotEnabled
      end
  | TakeCtxDone =>
      match caller s, scope s with
      | Blocked, Some e =>
          Next {| scope := scope s; lctx := lctx s; ch := ch s;
                  closes := closes s; listener := listener s;
                  caller := Resumed (Some (ctxError e)) |}
      | _, _ => NotEnabled
      end
  end.

Fixpoint navRun (tr : list navLabel) (s : navState) : stepResult :=
  match tr with
  | [] => Next s
  | l :: tr' =>
      match navStep l s with
      | Next s' => navRun tr' s'
      | r => r
      end
  end.


(* ===================================================================== *)
(** ** Reference instants for the loops *)

(** While the scope stays live, the instant of the j-th coming invocation
    (from 0) of a loop that waits [d] on a fresh timer before each
    invocation, seen from a loop head at instant [t] with [n] invocations
    behind it. *)
Fixpoint invocationAt (d : Duration) (c : Callee) (n : nat) (t : Z)
  (j : nat) : Z :=
  match j with
  | O => NewTimer d t
  | S j' =>
      invocationAt d c (S n) (NewTimer d t + Z.max 0 (cost c n)) j'
  end.

(* ===================================================================== *)
(** ** Invariants of the two schedulers *)

(** What holds of every state the wait reaches from its entry with the
    options [opts], along the schedule [tr]. *)
Record navInv (opts : list NavigateOption) (tr : list navLabel)
  (s : navState) : Prop := {
  inv_listener : listener s = wait (navOptionsOf opts);
  inv_closes : closes s = match ch s with chanOpen => 0%nat | chanClosed => 1%nat end;
  inv_closed_cancels : ch s = chanClosed -> lctx s <> None;
  inv_closed_matched :
    ch s = chanClosed ->
    exists w ev c, listener s = Some w /\ In (Fire ev) tr /\ w c ev = None;
  inv_caller :
    forall r, caller s = Resumed r ->
      (r = None /\ listener s = None) \/
      (r = None /\ ch s = chanClosed) \/
      (exists e, r = Some (ctxError e) /\ scope s = Some e)
}.

(** What the coordinator returns and leaves in memory, by what it was
    handed on [retC]: nothing (then the caller's scope is done), a failure,
    or a success of the action at position [k]. *)
Definition outcome (fn : raceFunc) (h0 : heap)
  (ds : list (nat * option error)) (p : option ctxErr)
  (r : option error) (h : heap) : Prop :=
  match ds with
  | [] => exists e, p = Some e /\ r = Some (ctxError e) /\ h = h0
  | [(k, Some e)] => r = Some e /\ h = h0
  | [(k, None)] =>
      r = None /\ (k < length (actions fn))%nat /\
      h = match waitIdx fn with
          | Some a => store h0 a (Z.of_nat k)
          | None => h0
          end
  | _ => False
  end.

(** The steps the coordinator takes on its own, whatever the actions do. *)
Definition coordinatorStep (l : label) : Prop :=
  l = Spawn \/ l = LoopExit \/ l = DeferCancel.

(** What holds of every state a race reaches from its entry with memory
    [h0], along the schedule [tr]. *)
Record raceInv (fn : raceFunc) (h0 : heap) (tr : list label) (s : race)
  : Prop := {
  ri_wg : wg s = pending (executors s);
  ri_launched :
    match coord s with
    | Launching idx =>
        length (executors s) = idx /\ (idx <= length (actions fn))%nat
    | _ => length (executors s) = length (actions fn)
    end;
  ri_scope :
    match coord s with
    | Joining _ | Returned _ => derived s <> None
    | _ => derived s = parent s
    end;
  ri_outcome :
    match coord s with
    | Launching _ | Selecting => deliveries tr = [] /\ mem s = h0
    | Unwinding r | Joining r | Returned r =>
        outcome fn h0 (deliveries tr) (parent s) r (mem s)
    end;
  ri_joined :
    match coord s with
    | Returned _ => wg s = 0%nat
    | _ => True
    end;
  ri_left :
    forall k,
      executors s !! k = Some Leaving \/ executors s !! k = Some Exited ->
      (exists e, In (Deliver k e) tr) \/ In (Abandon k) tr
}.

(* ===================================================================== *)
(** ** nav.go: navigation requests *)

(** An [int64] result, wrapped around. *)
Definition int64 (z : Z) : Z := (z + 2 ^ 63) mod 2 ^ 64 - 2 ^ 63.

(** [l[i]] for a slice and an integer index; [None] is the run-time panic
    on an index out of range. *)
Definition index {A : Type} (l : list A) (i : Z) : option A :=
  if i <? 0 then None else l !! Z.to_nat i.

(** [page.NavigationEntry], of which the code reads the ID. *)
Record NavigationEntry := { ID : Z }.

(** The requests the navigation actions send to the browser. *)
Inductive request :=
| reqNavigate (urlstr : string)
| reqNavigateToHistoryEntry (entryID : Z)
| reqReload.

(** A navigation action up to the point where it returns or blocks: it has
    returned [err] without waiting, or it is inside [waitNavEvent]; in both
    cases with the request it has sent, if any. *)
Inductive started :=
| ReturnsEarly (sent : option request) (err : error)
| EntersWait (sent : option request) (s : navState).

(** The browser as the actions see it: what [page.GetNavigationHistory]
    answers (current index, entries, error) and the error, or nil, with
    which each request is answered.  The entries are pointers, nil is
    [None]. *)
Record Browser := {
  history : Z * list (option NavigationEntry) * option error;
  answer : request -> option error
}.

(** The tail shared by the history actions: read the ID of the entry picked,
    ask the browser to go there, wait. *)
Definition toEntry (b : Browser) (picked : option (option NavigationEntry))
  (ctx : option ctxErr) (opts : list NavigateOption) : construct started :=
  match picked with
  | None => Panic "index out of range"
  | Some None => Panic "nil pointer dereference"
  | Some (Some entry) =>
      let req := reqNavigateToHistoryEntry (ID entry) in
      match answer b req with
      | Some e => Built (ReturnsEarly (Some req) e)
      | None => Built (EntersWait (Some req) (waitNavEvent ctx opts))
      end
  end.

Definition NavigateBack (b : Browser) (ctx : option ctxErr)
  (opts : list NavigateOption) : construct started :=
  let '(cur, entries, err) := history b in
  match err with
  | Some e => Built (ReturnsEarly None e)
  | None =>
      if (cur <=? 0) || (cur >? int64 (Z.of_nat (length entries) - 1))
      then Built (ReturnsEarly None (errorsNew "invalid navigation entry"))
      else toEntry b (index entries (int64 (cur - 1))) ctx opts
  end.

Definition NavigateForward (b : Browser) (ctx : option ctxErr)
  (opts : list NavigateOption) : construct started :=
  let '(cur, entries, err) := history b in
  match err with
  | Some e => Built (ReturnsEarly None e)
  | None =>
      if (cur <? 0) || (cur >=? int64 (Z.of_nat (length entries) - 1))
      then Built (ReturnsEarly None (errorsNew "invalid navigation entry"))
      else toEntry b (index entries (int64 (cur + 1))) ctx opts
  end.







Definition invalidEntry : construct started :=
  Built (ReturnsEarly None (errorsNew "invalid navigation entry")).

(* ===================================================================== *)
(** ** Spacing of the invocations of a loop *)

(** Invocation instants (latest first) that never overlap and are each
    preceded by a wait of at least [d]: every invocation begins no earlier
    than the one before it began, plus the time that one ran, plus [d]. *)
Fixpoint spaced (d : Duration) (c : Callee) (l : list Z) : Prop :=
  match l with
  | t2 :: l' =>
      match l' with
      | t1 :: rest =>
          t1 + Z.max 0 (cost c (length rest)) + Z.max 0 d <= t2
      | [] => True
      end /\ spaced d c l'
  | [] => True
  end.

(** A world whose invocations are spaced, began no earlier than [d] after
    [t0], and are all over at its clock. *)
Definition settled (d : Duration) (c : Callee) (t0 : Z) (w : World) : Prop :=
  spaced d c (invoked w) /\
  Forall (fun t => t0 + Z.max 0 d <= t) (invoked w) /\
  t0 <= now w /\
  match invoked w with
  | t :: rest => t + Z.max 0 (cost c (length rest)) <= now w
  | [] => True
  end.

(* ===================================================================== *)
(** ** nav.go: WaitNotLocation and WaitLocationChanged *)

(** Memory of [string] cells, for the [ret] out slot. *)
Definition strings := nat -> string.

Definition storeString (h : strings) (p : nat) (v : string) : strings :=
  fun q => if Nat.eqb q p then v else h q.

(** [Location(&urlstr).Do(ctx)] as the loops use it, its error dropped:
    what the k-th evaluation (counted from 0) leaves in the variable it is
    given, from what the variable held, and how long it runs.  An evaluation
    that fails without writing leaves the variable as it was. *)
Record Reader := { leaves : nat -> string -> string; took : nat -> Duration }.

(** The running times of a reader, for [invocationAt]. *)
Definition timing (loc : Reader) : Callee :=
  {| result := fun _ => None; cost := took loc |}.

(** An evaluation entered at [t] on a variable holding [urlstr]. *)
Definition evaluate (loc : Reader) (t : Z) (urlstr : string) (w : World)
  : string * World :=
  let k := length (invoked w) in
  (leaves loc k urlstr,
   {| now := t + Z.max 0 (took loc k);
      invoked := t :: invoked w;
      selects := selects w |}).

Definition afterSelect (w : World) : World :=
  {| now := now w; invoked := invoked w; selects := S (selects w) |}.

(** [if ret != nil { *ret = urlstr }]. *)
Definition report (ret : pointer) (urlstr : string) (h : strings) : strings :=
  match ret with
  | Some p => storeString h p urlstr
  | None => h
  end.

(** The [for] of [WaitNotLocation], with what [urlstr] holds. *)
Fixpoint WaitNotLocation_loop (not_ : string) (ret : pointer) (loc : Reader)
  (ctx : Scope) (ties : nat -> selected) (fuel : nat) (urlstr : string)
  (w : World) (h : strings) : option (option error * World * strings) :=
  match fuel with
  | O => None
  | S fuel' =>
      let tm := NewTimer (50 * Millisecond) (now w) in
      match selectDoneTimer ctx tm (ties (selects w)) (now w) with
      | (caseDone, t) => Some (Err ctx t, cancelled t w, h)
      | (caseTimer, t) =>
          let (urlstr', w') := evaluate loc t urlstr (afterSelect w) in
          if String.eqb urlstr' not_
          then WaitNotLocation_loop not_ ret loc ctx ties fuel' urlstr' w' h
          else Some (None, w', report ret urlstr' h)
      end
  end.

Definition WaitNotLocation (not_ : string) (ret : pointer) (loc : Reader)
  (ctx : Scope) (ties : nat -> selected) (fuel : nat) (w : World)
  (h : strings) : option (option error * World * strings) :=
  WaitNotLocation_loop not_ ret loc ctx ties fuel ""%string w h.

(** [init := ""; Location(&init).Do(ctx)], then [WaitNotLocation(init, ret)]:
    the first evaluation is entered at once, whatever the scope. *)
Definition WaitLocationChanged (ret : pointer) (loc : Reader)
  (ctx : Scope) (ties : nat -> selected) (fuel : nat) (w : World)
  (h : strings) : option (option error * World * strings) :=
  let (init, w1) := evaluate loc (now w) ""%string w in
  WaitNotLocation init ret loc ctx ties fuel w1 h.

(** What the variable holds after the j-th coming evaluation (from 0), for
    a loop with [n] evaluations behind it and the variable holding [u]. *)
Fixpoint heldAfter (loc : Reader) (n : nat) (u : string) (j : nat) : string :=
  match j with
  | O => leaves loc n u
  | S j' => heldAfter loc (S n) (leaves loc n u) j'
  end.

(* ===================================================================== *)
(** ** Cookies *)

(** [network.Cookie] and [network.CookieParam], with the fields the code
    reads and writes.  [Expires] of a cookie is a [float64], kept abstract
    as [F]; [Expires] of a param is a pointer to a time, here the seconds
    since the epoch it points to, [None] when nil. *)
Module Cookie.
Record t (F : Type) := {
  Name : string; Value : string; Domain : string; Path : string;
  Expires : F; Secure : bool; HTTPOnly : bool; SameSite : string
}.
Arguments Name {F} _.
Arguments Value {F} _.
Arguments Domain {F} _.
Arguments Path {F} _.
Arguments Expires {F} _.
Arguments Secure {F} _.
Arguments HTTPOnly {F} _.
Arguments SameSite {F} _.
End Cookie.

Module CookieParam.
Record t := {
  Name : string; Value : string; URL : string; Domain : string;
  Path : string; Secure : bool; HTTPOnly : bool; SameSite : string;
  Expires : option Z
}.
End CookieParam.

(** The param built in one iteration; [toInt64] is the conversion
    [int64(c.Expires)] of the float to whole seconds. *)
Definition cookieParam {F : Type} (toInt64 : F -> Z) (c : Cookie.t F)
  : CookieParam.t :=
  {| CookieParam.Name := Cookie.Name c;
     CookieParam.Value := Cookie.Value c;
     CookieParam.URL := "";
     CookieParam.Domain := Cookie.Domain c;
     CookieParam.Path := Cookie.Path c;
     CookieParam.Secure := Cookie.Secure c;
     CookieParam.HTTPOnly := Cookie.HTTPOnly c;
     CookieParam.SameSite := Cookie.SameSite c;
     CookieParam.Expires := Some (toInt64 (Cookie.Expires c)) |}.

(** The [for _, c := range cookies] of [CookieParamsFromCookies], with the
    slice [ret] built so far; the cookies are pointers, and reading a field
    of a nil one panics. *)
Fixpoint CookieParamsFromCookies_loop {F : Type} (toInt64 : F -> Z)
  (cookies : list (option (Cookie.t F))) (ret : list CookieParam.t)
  : construct (list CookieParam.t) :=
  match cookies with
  | [] => Built ret
  | None :: _ => Panic "nil pointer dereference"
  | Some c :: rest =>
      CookieParamsFromCookies_loop toInt64 rest (ret ++ [cookieParam toInt64 c])
  end.

Definition CookieParamsFromCookies {F : Type} (toInt64 : F -> Z)
  (cookies : list (option (Cookie.t F))) : construct (list CookieParam.t) :=
  CookieParamsFromCookies_loop toInt64 cookies [].

(** The body of the action [SetCookies] returns: the params are built, then
    sent, and the error of the request is returned. *)
Definition SetCookies {F : Type} (toInt64 : F -> Z)
  (send : list CookieParam.t -> option error)
  (cookies : list (option (Cookie.t F))) : construct (option error) :=
  match CookieParamsFromCookies toInt64 cookies with
  | Built params => Built (send params)
  | Panic msg => Panic msg
  end.

(* ===================================================================== *)
(** ** Undetectable *)

Record undetectableOptions := { bypassIframeTest : bool }.

Definition newUndetectableOptions : undetectableOptions :=
  {| bypassIframeTest := true |}.

Definition UndetectableOption := undetectableOptions -> undetectableOptions.

Definition BypassIframeTest (bypassIframeTest : bool) : UndetectableOption :=
  fun _ => {| bypassIframeTest := bypassIframeTest |}.

(** The text appended for the iframe test. *)
Definition iframePatch : string :=
"
// Pass the iframe Test
	Object.defineProperty(HTMLIFrameElement.prototype, 'contentWindow', {
		get: function() {
		  return window;
		}
	});
".

(** The script [Undetectable] hands to the browser; [script] is the text it
    starts from. *)
Definition Undetectable (script : string) (opts : list UndetectableOption)
  : string :=
  let options :=
    fold_left (fun options opt => opt options) opts newUndetectableOptions in
  if bypassIframeTest options then (script ++ iframePatch)%string else script.
(* ===================================================================== *)
(** * Properties *)

(** ** Constructors *)

(** C6: [WaitOneOf] without actions panics when it is called, and no action
    value is built; with at least one action it builds the closure over its
    arguments and does not panic. *)
Theorem WaitOneOf_panics_exactly_on_no_actions :
  forall (waitIdx : pointer),
    WaitOneOf waitIdx [] = Panic "actions cannot be empty" /\
    forall (a : Racer) (rest : list Racer),
      WaitOneOf waitIdx (a :: rest) =
      Built {| waitIdx := waitIdx; actions := a :: rest |}.
Proof.
  intros p. split; [reflexivity|]. intros a rest. reflexivity.
Qed.

(** C9: the constructors with a required output pointer panic when it is
    nil, before an action exists; given addresses they do not take that
    branch: [NavigationEntries], [GetCookies] and [CaptureScreenshot] build
    their closure, [Location] and [Title] return what [EvaluateAsDevTools]
    returns on the address. *)
Theorem required_out_pointer_panics_exactly_on_nil :
  forall (A : Type) (eval : string -> nat -> construct A) (p q : nat)
         (any : pointer),
    (NavigationEntries None any = Panic "currentIndex and entries cannot be nil" /\
     NavigationEntries any None = Panic "currentIndex and entries cannot be nil" /\
     NavigationEntries (Some p) (Some q) = Built (navigationEntriesFunc p q)) /\
    (GetCookies None = Panic "cookies cannot be nil" /\
     GetCookies (Some p) = Built (getCookiesFunc p)) /\
    (CaptureScreenshot None = Panic "res cannot be nil" /\
     CaptureScreenshot (Some p) = Built (captureScreenshotFunc p)) /\
    (Location eval None = Panic "urlstr cannot be nil" /\
     Location eval (Some p) = eval "document.location.toString()"%string p) /\
    (Title eval None = Panic "title cannot be nil" /\
     Title eval (Some p) = eval "document.title"%string p).
Proof.
  intros A eval p q any. repeat split; try reflexivity.
  destruct any; reflexivity.
Qed.

(** ** Navigation options *)





(** ** The navigation wait *)

Lemma navRun_snoc (tr : list navLabel) (l : navLabel) (s : navState) :
  navRun (tr ++ [l]) s =
  match navRun tr s with
  | Next s' => navStep l s'
  | r => r
  end.
Proof.
  revert s. induction tr as [|l' tr IH]; intros s; simpl.
  - destruct (navStep l s); reflexivity.
  - destruct (navStep l' s); auto.
Qed.

Lemma navInv_entry (ctx : option ctxErr) (opts : list NavigateOption) :
  navInv opts [] (waitNavEvent ctx opts).
Proof.
  unfold waitNavEvent.
  destruct (wait (navOptionsOf opts)) as [w|] eqn:E;
    constructor; simpl; try congruence; auto.
  intros r H. injection H as <-. auto.
Qed.

Lemma navInv_later opts tr l s :
  navInv opts tr s -> navInv opts (tr ++ [l]) s.
Proof.
  intros [Hl Hc Hcc Hm Hr]. constructor; auto.
  intros H. destruct (Hm H) as (w & ev & c & ? & ? & ?).
  exists w, ev, c. rewrite in_app_iff. auto.
Qed.

Lemma navInv_step opts tr l s :
  navInv opts tr s ->
  match navStep l s with
  | Next s' => navInv opts (tr ++ [l]) s'
  | NotEnabled => True
  | Panics _ => False
  end.
Proof.
  intros Hinv. pose proof (navInv_later opts tr l s Hinv) as Hsame.
  destruct Hsame as [Hl Hc Hcc Hm Hr].
  destruct l as [ev|e| |]; simpl.
  - unfold ListenTarget_dispatch.
    destruct (listener s) as [w|] eqn:El;
      [|apply (navInv_later _ _ (Fire ev)), Hinv].
    destruct (lctx s) as [x|] eqn:Ex;
      [apply (navInv_later _ _ (Fire ev)), Hinv|].
    unfold callback.
    destruct (w (scope s) ev) eqn:Ew;
      [apply (navInv_later _ _ (Fire ev)), Hinv|].
    destruct (ch s) eqn:Ech; [|apply Hcc; reflexivity].
    constructor; simpl; rewrite ?El, ?Ex; simpl; auto; try congruence.
    + intros _. exists w, ev, (scope s).
      rewrite in_app_iff. simpl. auto.
    + intros r H.
      destruct (Hr r H) as [[? ?]|[[? ?]|?]]; try congruence; auto.
  - destruct (scope s) as [x|] eqn:Es; [exact I|].
    constructor; simpl; auto.
    + intros H. specialize (Hcc H).
      destruct (listener s); [|assumption].
      destruct (lctx s); simpl; congruence.
    + intros r H. destruct (Hr r H) as [?|[?|(x & ? & ?)]]; auto. congruence.
  - destruct (caller s) eqn:Ec; [|exact I].
    destruct (ch s) eqn:Ech; [exact I|].
    constructor; simpl; rewrite ?Ech; auto.
    intros r H. injection H as <-. auto.
  - destruct (caller s) eqn:Ec; [|exact I].
    destruct (scope s) as [e|] eqn:Es; [|exact I].
    constructor; simpl; rewrite ?Es; auto.
    intros r H. injection H as <-. right. right. eauto.
Qed.

Lemma navInv_run ctx opts tr :
  match navRun tr (waitNavEvent ctx opts) with
  | Next s' => navInv opts tr s'
  | NotEnabled => True
  | Panics _ => False
  end.
Proof.
  induction tr as [|l tr IH] using rev_ind.
  - simpl. apply navInv_entry.
  - rewrite navRun_snoc.
    destruct (navRun tr (waitNavEvent ctx opts)) as [s'| |m]; auto.
    apply navInv_step, IH.
Qed.




(** C5: when [waitNavEvent] returns, it returns nil with no listener ever
    registered (the options left no predicate), or nil after an event that
    its predicate matched, or the error of the caller's scope, which is done;
    it never returns [ErrNotMatch]. *)
Theorem waitNavEvent_result
  (ctx : option ctxErr) (opts : list NavigateOption) (tr : list navLabel)
  (s' : navState) (r : option error)
  (Hrun : navRun tr (waitNavEvent ctx opts) = Next s')
  (Hret : caller s' = Resumed r) :
  ((r = None /\ wait (navOptionsOf opts) = None /\ listener s' = None /\
    caller (waitNavEvent ctx opts) = Resumed None) \/
   (r = None /\ exists w ev c, wait (navOptionsOf opts) = Some w /\
                               In (Fire ev) tr /\ w c ev = None) \/
   (exists e, r = Some (ctxError e) /\ scope s' = Some e)) /\
  r <> Some ErrNotMatch.
Proof.
  pose proof (navInv_run ctx opts tr) as H. rewrite Hrun in H.
  destruct H as [Hl Hc Hcc Hm Hr].
  destruct (Hr r Hret) as [[-> Hn]|[[-> Hch]|(e & -> & He)]].
  - split; [|congruence]. left.
    rewrite Hl in Hn. repeat split; auto; try congruence.
    unfold waitNavEvent. rewrite Hn. reflexivity.
  - split; [|congruence]. right. left. split; [reflexivity|].
    destruct (Hm Hch) as (w & ev & c & Hw & Hin & Hmatch).
    exists w, ev, c. rewrite <- Hl. auto.
  - split; [|congruence]. right. right. eauto.
Qed.

Lemma waitNavEvent_result_witness :
  ((@None error = None /\ wait (navOptionsOf []) = None /\
    listener
      {| scope := None; lctx := Some Canceled; ch := chanClosed;
         closes := 1; listener := Some loadEventFired;
         caller := Resumed None |} = None /\
    caller (waitNavEvent None []) = Resumed None) \/
   (@None error = None /\ exists w ev c, wait (navOptionsOf []) = Some w /\
       In (Fire ev) [Fire EventFrameNavigated; Fire EventLoadEventFired;
                     TakeCh] /\
       w c ev = None) \/
   (exists e, @None error = Some (ctxError e) /\
      scope
        {| scope := None; lctx := Some Canceled; ch := chanClosed;
           closes := 1; listener := Some loadEventFired;
           caller := Resumed None |} = Some e)) /\
  None <> Some ErrNotMatch.
Proof.
  apply (waitNavEvent_result None []
           [Fire EventFrameNavigated; Fire EventLoadEventFired; TakeCh]);
    reflexivity.
Defined.

(** ** Select *)

Lemma error_eqb_continue (err : option error) :
  error_eqb err (Some ErrContinueWait) = true <-> err = Some ErrContinueWait.
Proof.
  destruct err as [[| |[]|]|]; simpl; split; congruence.
Qed.

Lemma NewTimer_ge (d : Duration) (t : Z) : t <= NewTimer d t.
Proof. unfold NewTimer. lia. Qed.

Lemma invocationAt_ge (d : Duration) (c : Callee) (j n : nat) (t : Z) :
  NewTimer d t <= invocationAt d c n t j.
Proof.
  revert n t. induction j as [|j IH]; intros n t; simpl; [lia|].
  specialize (IH (S n) (NewTimer d t + Z.max 0 (cost c n))).
  pose proof (NewTimer_ge d (NewTimer d t + Z.max 0 (cost c n))). lia.
Qed.

Lemma isDone_earlier (ctx : Scope) (t t' : Z) :
  isDone ctx t' = false -> t <= t' -> isDone ctx t = false.
Proof.
  unfold isDone. destruct (cancelAt ctx) as [c|]; [|reflexivity].
  rewrite !Z.leb_gt. lia.
Qed.

(** A live scope lets the timer win. *)
Lemma select_timer (ctx : Scope) (tm t : Z) (tie : selected) :
  isDone ctx tm = false -> t <= tm ->
  selectDoneTimer ctx tm tie t = (caseTimer, tm).
Proof.
  unfold isDone, selectDoneTimer. intros H Ht.
  rewrite (Z.max_l tm t) by lia.
  destruct (cancelAt ctx) as [c|]; [|reflexivity].
  apply Z.leb_gt in H.
  destruct (Z.ltb_spec (Z.max c t) tm); [lia|].
  destruct (Z.ltb_spec tm (Z.max c t)); [reflexivity|lia].
Qed.

(** A scope that ends before the timer delivers wins, at the instant it
    ends or at once when it has already ended. *)
Lemma select_done (ctx : Scope) (c tm t : Z) (tie : selected) :
  cancelAt ctx = Some c -> c < tm -> t < tm ->
  selectDoneTimer ctx tm tie t = (caseDone, Z.max c t).
Proof.
  unfold selectDoneTimer. intros -> Hc Ht.
  rewrite (Z.max_l tm t) by lia.
  destruct (Z.ltb_spec (Z.max c t) tm); [reflexivity|lia].
Qed.

Lemma select_tie (ctx : Scope) (tm t : Z) (tie : selected) :
  cancelAt ctx = Some tm -> t <= tm ->
  selectDoneTimer ctx tm tie t = (tie, tm).
Proof.
  unfold selectDoneTimer. intros -> Ht.
  rewrite (Z.max_l tm t) by lia.
  rewrite Z.ltb_irrefl. reflexivity.
Qed.

Lemma Err_after (ctx : Scope) (c t : Z) :
  cancelAt ctx = Some c -> c <= t -> Err ctx t = Some (ctxError (cause ctx)).
Proof.
  unfold Err, isDone. intros -> H.
  destruct (Z.leb_spec c t); [reflexivity|lia].
Qed.

(** Whatever case a select takes, [ctx.Err()] read in the done case is the
    error of the scope. *)
Lemma select_done_Err (ctx : Scope) (tm t t' : Z) (tie : selected) :
  selectDoneTimer ctx tm tie t = (caseDone, t') ->
  Err ctx t' = Some (ctxError (cause ctx)).
Proof.
  unfold selectDoneTimer.
  destruct (cancelAt ctx) as [c|] eqn:Ec; [|discriminate].
  destruct (Z.ltb_spec (Z.max c t) (Z.max tm t)).
  - intros [= <-]. apply (Err_after ctx c); [assumption|lia].
  - destruct (Z.ltb_spec (Z.max tm t) (Z.max c t)); [discriminate|].
    intros [= _ <-]. apply (Err_after ctx c); [assumption|lia].
Qed.

Lemma map_seq_S {A : Type} (g : nat -> A) (m : nat) :
  map g (seq 0 (S m)) = g O :: map (fun j => g (S j)) (seq 0 m).
Proof.
  simpl. f_equal. rewrite <- seq_shift, map_map. reflexivity.
Qed.

(** ** WaitUntil *)

Lemma WaitUntil_more_fuel f ctx ties fuel w res :
  WaitUntil f ctx ties fuel w = Some res ->
  forall fuel', (fuel <= fuel')%nat -> WaitUntil f ctx ties fuel' w = Some res.
Proof.
  revert w. induction fuel as [|fuel IH]; intros w H fuel' Hle;
    [discriminate|].
  destruct fuel' as [|fuel']; [lia|].
  simpl in *.
  destruct (selectDoneTimer ctx (NewTimer (50 * Millisecond) (now w))
              (ties (selects w)) (now w)) as [[] t]; [assumption|].
  destruct (error_eqb (result f (length (invoked w))) (Some ErrContinueWait));
    [|assumption].
  apply IH; [assumption|lia].
Qed.

Lemma WaitUntil_never_continue f ctx ties fuel w err w' :
  WaitUntil f ctx ties fuel w = Some (err, w') -> err <> Some ErrContinueWait.
Proof.
  revert w. induction fuel as [|fuel IH]; intros w; [discriminate|].
  simpl.
  destruct (selectDoneTimer ctx (NewTimer (50 * Millisecond) (now w))
              (ties (selects w)) (now w)) as [[] t] eqn:Es.
  - rewrite (select_done_Err _ _ _ _ _ Es). intros [= <- _]. discriminate.
  - destruct (error_eqb (result f (length (invoked w))) (Some ErrContinueWait))
      eqn:Ee.
    + apply IH.
    + intros [= <- _] Hc. apply error_eqb_continue in Hc. congruence.
Qed.

Lemma WaitUntil_continues f ctx ties (C : nat) (r : option error) :
  r <> Some ErrContinueWait ->
  forall w,
    (forall j, (j < C)%nat ->
               result f (length (invoked w) + j) = Some ErrContinueWait) ->
    result f (length (invoked w) + C) = r ->
    isDone ctx (invocationAt (50 * Millisecond) f (length (invoked w))
                  (now w) C) = false ->
    exists w',
      WaitUntil f ctx ties (S C) w = Some (r, w') /\
      invoked w' =
      rev (map (invocationAt (50 * Millisecond) f (length (invoked w)) (now w))
             (seq 0 (S C))) ++ invoked w.
Proof.
  intros Hr. induction C as [|C IH]; intros w Hcont Hres Hlive.
  - simpl in Hlive. cbn [WaitUntil].
    rewrite select_timer by (auto using NewTimer_ge).
    unfold invoke. rewrite Nat.add_0_r in Hres. rewrite Hres.
    destruct (error_eqb r (Some ErrContinueWait)) eqn:Ee;
      [apply error_eqb_continue in Ee; contradiction|].
    eexists. split; reflexivity.
  - cbn [WaitUntil].
    assert (Hl1 : isDone ctx (NewTimer (50 * Millisecond) (now w)) = false).
    { eapply isDone_earlier; [exact Hlive|apply invocationAt_ge]. }
    rewrite select_timer by (auto using NewTimer_ge).
    assert (H0 : result f (length (invoked w)) = Some ErrContinueWait).
    { rewrite <- (Hcont O) by lia. rewrite Nat.add_0_r. reflexivity. }
    unfold invoke. rewrite H0. cbn [error_eqb].
    set (w1 := {| now := NewTimer (50 * Millisecond) (now w) +
                         Z.max 0 (cost f (length (invoked w)));
                  invoked := NewTimer (50 * Millisecond) (now w) :: invoked w;
                  selects := S (selects w) |}).
    destruct (IH w1) as (w' & Hrun & Hinv).
    + intros j Hj. simpl. rewrite <- Nat.add_succ_r. apply Hcont. lia.
    + simpl. rewrite <- Nat.add_succ_r. exact Hres.
    + exact Hlive.
    + exists w'. split; [exact Hrun|].
      rewrite Hinv. rewrite (map_seq_S _ (S C)).
      cbn [rev]. rewrite <- app_assoc. reflexivity.
Qed.

Lemma WaitUntil_cancel_ends f ctx ties (c : Z) :
  cancelAt ctx = Some c ->
  (forall k, result f k = Some ErrContinueWait) ->
  forall (n : nat) (w : World),
    c - now w <= Z.of_nat n ->
    Forall (fun t => t <= c) (invoked w) ->
    exists fuel w',
      WaitUntil f ctx ties fuel w = Some (Some (ctxError (cause ctx)), w') /\
      Forall (fun t => t <= c) (invoked w').
Proof.
  intros Hc Hcont.
  assert (Hms : 0 < 50 * Millisecond) by (unfold Millisecond; lia).
  assert (Hdone : forall w, c < NewTimer (50 * Millisecond) (now w) ->
            Forall (fun t => t <= c) (invoked w) ->
            exists fuel w',
              WaitUntil f ctx ties fuel w =
              Some (Some (ctxError (cause ctx)), w') /\
              Forall (fun t => t <= c) (invoked w')).
  { intros w Hlt Hall. exists 1%nat. eexists. cbn [WaitUntil].
    rewrite (select_done ctx c) by (auto; unfold NewTimer; lia).
    rewrite (Err_after ctx c) by (auto; lia).
    split; [reflexivity|exact Hall]. }
  induction n as [|n IH]; intros w Hn Hall.
  - apply Hdone; [unfold NewTimer; lia|assumption].
  - destruct (Z_lt_le_dec c (NewTimer (50 * Millisecond) (now w))) as [Hlt|Hge];
      [apply Hdone; assumption|].
    set (tm := NewTimer (50 * Millisecond) (now w)) in *.
    set (w1 := {| now := tm + Z.max 0 (cost f (length (invoked w)));
                  invoked := tm :: invoked w;
                  selects := S (selects w) |}).
    assert (Hnext : exists fuel w',
               WaitUntil f ctx ties fuel w1 =
               Some (Some (ctxError (cause ctx)), w') /\
               Forall (fun t => t <= c) (invoked w')).
    { apply IH.
      - simpl. unfold tm, NewTimer in *. lia.
      - simpl. constructor; [lia|assumption]. }
    destruct Hnext as (fuel & w' & Hrun & Hall').
    destruct (Z.eq_dec c tm) as [->|Hne].
    + destruct (ties (selects w)) eqn:Et.
      * exists 1%nat. eexists. cbn [WaitUntil]. fold tm.
        rewrite select_tie by (auto; unfold tm; apply NewTimer_ge).
        rewrite Et. rewrite (Err_after ctx tm) by (auto; lia).
        split; [reflexivity|exact Hall].
      * exists (S fuel), w'. cbn [WaitUntil]. fold tm.
        rewrite select_tie by (auto; unfold tm; apply NewTimer_ge).
        rewrite Et. unfold invoke. rewrite Hcont. cbn [error_eqb].
        split; assumption.
    + exists (S fuel), w'. cbn [WaitUntil]. fold tm.
      rewrite select_timer;
        [|unfold isDone; rewrite Hc; apply Z.leb_gt; lia
         |unfold tm; apply NewTimer_ge].
      unfold invoke. rewrite Hcont. cbn [error_eqb].
      split; assumption.
Qed.

Lemma invocationAt_S (d : Duration) (c : Callee) (k n : nat) (t : Z) :
  invocationAt d c n t (S k) =
  invocationAt d c n t k + Z.max 0 (cost c (n + k)) + Z.max 0 d.
Proof.
  revert n t. induction k as [|k IH]; intros n t.
  - simpl. unfold NewTimer. rewrite Nat.add_0_r. lia.
  - change (invocationAt d c n t (S (S k)))
      with (invocationAt d c (S n) (NewTimer d t + Z.max 0 (cost c n)) (S k)).
    rewrite IH. simpl. rewrite Nat.add_succ_r. reflexivity.
Qed.

(** C3: a predicate that returns [ErrContinueWait] on its first [C]
    invocations and then [r], under a scope that is live until the tick of
    invocation [C+1], is invoked exactly [C+1] times by [WaitUntil], each
    time after a fresh 50ms timer (the first 50ms after the start, each
    later one 50ms after the previous invocation returned), and the loop
    returns [r]; and whatever the predicate, the scope and the schedule,
    [WaitUntil] never returns [ErrContinueWait]. *)
Theorem WaitUntil_continue_law
  (f : Callee) (ctx : Scope) (ties : nat -> selected) (t0 : Z)
  (C : nat) (r : option error)
  (Hcont : forall k, (k < C)%nat -> result f k = Some ErrContinueWait)
  (Hres : result f C = r)
  (Hr : r <> Some ErrContinueWait)
  (Hlive : isDone ctx (invocationAt (50 * Millisecond) f 0 t0 C) = false) :
  (exists w',
      (forall fuel, (C < fuel)%nat ->
                    WaitUntil f ctx ties fuel (start t0) = Some (r, w')) /\
      length (invoked w') = S C /\
      invoked w' =
      rev (map (invocationAt (50 * Millisecond) f 0 t0) (seq 0 (S C)))) /\
  invocationAt (50 * Millisecond) f 0 t0 0 = t0 + 50 * Millisecond /\
  (forall k,
      invocationAt (50 * Millisecond) f 0 t0 (S k) =
      invocationAt (50 * Millisecond) f 0 t0 k + Z.max 0 (cost f k) +
      50 * Millisecond) /\
  (forall (g : Callee) (ctx' : Scope) (ties' : nat -> selected)
          (fuel : nat) (w : World) (err : option error) (w' : World),
      WaitUntil g ctx' ties' fuel w = Some (err, w') ->
      err <> Some ErrContinueWait).
Proof.
  destruct (WaitUntil_continues f ctx ties C r Hr (start t0))
    as (w' & Hrun & Hinv); auto.
  split; [|split; [|split]].
  - exists w'. split; [|split].
    + intros fuel Hf. apply (WaitUntil_more_fuel _ _ _ (S C)); [exact Hrun|lia].
    + rewrite Hinv. simpl invoked. rewrite app_nil_r.
      rewrite length_rev, length_map, length_seq. reflexivity.
    + rewrite Hinv. simpl invoked. rewrite app_nil_r. reflexivity.
  - reflexivity.
  - intros k. rewrite invocationAt_S. reflexivity.
  - intros g ctx' ties' fuel w err w2. apply WaitUntil_never_continue.
Qed.

Lemma WaitUntil_continue_law_witness :
  exists w',
    (forall fuel, (2 < fuel)%nat ->
       WaitUntil
         {| result := fun k => if (k <? 2)%nat then Some ErrContinueWait
                               else None;
            cost := fun _ => 7 |}
         {| cancelAt := Some 200000000; cause := DeadlineExceeded |}
         (fun _ => caseDone) fuel (start 0) = Some (None, w')) /\
    length (invoked w') = 3%nat.
Proof.
  destruct (WaitUntil_continue_law
              {| result := fun k => if (k <? 2)%nat then Some ErrContinueWait
                                    else None;
                 cost := fun _ => 7 |}
              {| cancelAt := Some 200000000; cause := DeadlineExceeded |}
              (fun _ => caseDone) 0 2 None) as [(w' & H1 & H2 & _) _].
  - intros [|[|k]] Hk; [reflexivity|reflexivity|lia].
  - reflexivity.
  - discriminate.
  - reflexivity.
  - exists w'. split; assumption.
Defined.

(** C7: at every iteration of [WaitUntil], for every predicate, a scope
    that is already done when the iteration begins makes the loop return the
    scope's error without another invocation; so under a predicate that
    returns [ErrContinueWait] for ever the loop ends with the scope's error,
    and no invocation begins after the instant of cancellation. *)
Theorem WaitUntil_checks_cancellation_each_iteration
  (f : Callee) (ctx : Scope) (ties : nat -> selected) (t0 c : Z)
  (Hc : cancelAt ctx = Some c)
  (Hcont : forall k, result f k = Some ErrContinueWait) :
  (forall (g : Callee) (w : World) (fuel : nat),
      isDone ctx (now w) = true ->
      WaitUntil g ctx ties (S fuel) w =
      Some (Some (ctxError (cause ctx)), cancelled (now w) w) /\
      invoked (cancelled (now w) w) = invoked w) /\
  (exists fuel w',
      WaitUntil f ctx ties fuel (start t0) =
      Some (Some (ctxError (cause ctx)), w') /\
      Forall (fun t => t <= c) (invoked w')).
Proof.
  split.
  - intros g w fuel Hd. split; [|reflexivity].
    unfold isDone in Hd. rewrite Hc in Hd. apply Z.leb_le in Hd.
    cbn [WaitUntil].
    rewrite (select_done ctx c)
      by (auto; unfold NewTimer, Millisecond; lia).
    rewrite (Z.max_r c (now w)) by lia.
    rewrite (Err_after ctx c) by (auto; lia). reflexivity.
  - apply (WaitUntil_cancel_ends f ctx ties c Hc Hcont
             (Z.to_nat (c - t0)) (start t0)).
    + simpl. lia.
    + constructor.
Qed.

Lemma WaitUntil_checks_cancellation_each_iteration_witness :
  exists fuel w',
    WaitUntil {| result := fun _ => Some ErrContinueWait; cost := fun _ => 3 |}
      {| cancelAt := Some 120000000; cause := Canceled |}
      (fun _ => caseTimer) fuel (start 0) =
    Some (Some (ctxError Canceled), w') /\
    Forall (fun t => t <= 120000000) (invoked w').
Proof.
  apply (WaitUntil_checks_cancellation_each_iteration
           {| result := fun _ => Some ErrContinueWait; cost := fun _ => 3 |}
           {| cancelAt := Some 120000000; cause := Canceled |}
           (fun _ => caseTimer) 0 120000000).
  - reflexivity.
  - intros k. reflexivity.
Defined.

(** ** IntervalRun *)

Lemma IntervalRun_more_fuel interval a ctx ties fuel tm w res :
  IntervalRun_loop interval a ctx ties fuel tm w = Some res ->
  forall fuel', (fuel <= fuel')%nat ->
                IntervalRun_loop interval a ctx ties fuel' tm w = Some res.
Proof.
  revert tm w. induction fuel as [|fuel IH]; intros tm w H fuel' Hle;
    [discriminate|].
  destruct fuel' as [|fuel']; [lia|].
  simpl in *.
  destruct (selectDoneTimer ctx tm (ties (selects w)) (now w)) as [[] t];
    [assumption|].
  destruct (result a (length (invoked w))); [assumption|].
  apply IH; [assumption|lia].
Qed.

(** What the loop can return: the error of the scope, or an error that an
    invocation of the action returned. *)
Lemma IntervalRun_returns interval a ctx ties fuel tm w err w' :
  IntervalRun_loop interval a ctx ties fuel tm w = Some (err, w') ->
  err = Some (ctxError (cause ctx)) \/
  exists k e, result a k = Some e /\ err = Some e.
Proof.
  revert tm w. induction fuel as [|fuel IH]; intros tm w; [discriminate|].
  simpl.
  destruct (selectDoneTimer ctx tm (ties (selects w)) (now w)) as [[] t] eqn:Es.
  - rewrite (select_done_Err _ _ _ _ _ Es). intros [= <- _]. auto.
  - destruct (result a (length (invoked w))) as [e|] eqn:Er.
    + intros [= <- _]. right. eauto.
    + apply IH.
Qed.

Lemma IntervalRun_runs interval a ctx ties (C : nat) (e : error) :
  forall w,
    (forall j, (j < C)%nat -> result a (length (invoked w) + j) = None) ->
    result a (length (invoked w) + C) = Some e ->
    isDone ctx (invocationAt interval a (length (invoked w)) (now w) C)
    = false ->
    exists w',
      IntervalRun_loop interval a ctx ties (S C)
        (NewTimer interval (now w)) w = Some (Some e, w') /\
      invoked w' =
      rev (map (invocationAt interval a (length (invoked w)) (now w))
             (seq 0 (S C))) ++ invoked w.
Proof.
  induction C as [|C IH]; intros w Hok Hfail Hlive.
  - simpl in Hlive. cbn [IntervalRun_loop].
    rewrite select_timer by (auto using NewTimer_ge).
    unfold invoke. rewrite Nat.add_0_r in Hfail. rewrite Hfail.
    eexists. split; reflexivity.
  - cbn [IntervalRun_loop].
    assert (Hl1 : isDone ctx (NewTimer interval (now w)) = false).
    { eapply isDone_earlier; [exact Hlive|apply invocationAt_ge]. }
    rewrite select_timer by (auto using NewTimer_ge).
    assert (H0 : result a (length (invoked w)) = None).
    { rewrite <- (Hok O) by lia. rewrite Nat.add_0_r. reflexivity. }
    unfold invoke. rewrite H0.
    set (w1 := {| now := NewTimer interval (now w) +
                         Z.max 0 (cost a (length (invoked w)));
                  invoked := NewTimer interval (now w) :: invoked w;
                  selects := S (selects w) |}).
    destruct (IH w1) as (w' & Hrun & Hinv).
    + intros j Hj. simpl. rewrite <- Nat.add_succ_r. apply Hok. lia.
    + simpl. rewrite <- Nat.add_succ_r. exact Hfail.
    + exact Hlive.
    + exists w'. split; [exact Hrun|].
      rewrite Hinv. rewrite (map_seq_S _ (S C)).
      cbn [rev]. rewrite <- app_assoc. reflexivity.
Qed.

(** With a positive interval a fresh timer is never ready at once, so a
    scope that ends stops the loop at the next select at the latest. *)
Lemma IntervalRun_cancel_ends interval a ctx ties (c : Z) :
  0 < interval ->
  cancelAt ctx = Some c ->
  (forall k, result a k = None) ->
  forall (n : nat) (w : World),
    c - now w <= Z.of_nat n ->
    exists fuel w',
      IntervalRun_loop interval a ctx ties fuel (NewTimer interval (now w)) w
      = Some (Some (ctxError (cause ctx)), w').
Proof.
  intros Hpos Hc Hok.
  assert (Hdone : forall w, c < NewTimer interval (now w) ->
            exists fuel w',
              IntervalRun_loop interval a ctx ties fuel
                (NewTimer interval (now w)) w =
              Some (Some (ctxError (cause ctx)), w')).
  { intros w Hlt. exists 1%nat. eexists. cbn [IntervalRun_loop].
    rewrite (select_done ctx c) by (auto; unfold NewTimer; lia).
    rewrite (Err_after ctx c) by (auto; lia). reflexivity. }
  induction n as [|n IH]; intros w Hn.
  - apply Hdone. unfold NewTimer. lia.
  - destruct (Z_lt_le_dec c (NewTimer interval (now w))) as [Hlt|Hge];
      [apply Hdone; assumption|].
    set (tm := NewTimer interval (now w)) in *.
    set (w1 := {| now := tm + Z.max 0 (cost a (length (invoked w)));
                  invoked := tm :: invoked w;
                  selects := S (selects w) |}).
    destruct (IH w1) as (fuel & w' & Hrun).
    { simpl. unfold tm, NewTimer in *. lia. }
    destruct (Z.eq_dec c tm) as [->|Hne].
    + destruct (ties (selects w)) eqn:Et.
      * exists 1%nat. eexists. cbn [IntervalRun_loop].
        rewrite select_tie by (auto; unfold tm; apply NewTimer_ge).
        rewrite Et. rewrite (Err_after ctx tm) by (auto; lia). reflexivity.
      * exists (S fuel), w'. cbn [IntervalRun_loop].
        rewrite select_tie by (auto; unfold tm; apply NewTimer_ge).
        rewrite Et. unfold invoke. rewrite Hok. exact Hrun.
    + exists (S fuel), w'. cbn [IntervalRun_loop].
      rewrite select_timer;
        [|unfold isDone; rewrite Hc; apply Z.leb_gt; lia
         |unfold tm; apply NewTimer_ge].
      unfold invoke. rewrite Hok. exact Hrun.
Qed.

(** With any interval: at a loop head where the scope is already done, the
    loop returns the scope's error as soon as the select takes the done
    case, which it must when the timer is not ready and which is the
    runtime's choice when a non-positive interval makes the timer ready at
    once. *)
Lemma IntervalRun_done_ends interval a ctx ties (c : Z) :
  cancelAt ctx = Some c ->
  (forall k, result a k = None) ->
  forall (j : nat) (w : World),
    c <= now w ->
    ties (selects w + j)%nat = caseDone ->
    exists fuel w',
      IntervalRun_loop interval a ctx ties fuel (NewTimer interval (now w)) w
      = Some (Some (ctxError (cause ctx)), w').
Proof.
  intros Hc Hok.
  assert (Hstep : forall w, c <= now w ->
            selectDoneTimer ctx (NewTimer interval (now w))
              (ties (selects w)) (now w) = (caseDone, now w) \/
            (ties (selects w) = caseTimer /\
             selectDoneTimer ctx (NewTimer interval (now w))
               (ties (selects w)) (now w) = (caseTimer, now w))).
  { intros w Hw. unfold selectDoneTimer, NewTimer. rewrite Hc.
    rewrite (Z.max_r c (now w)) by lia.
    destruct (Z.ltb_spec (now w) (Z.max (now w + Z.max 0 interval) (now w)));
      [auto|].
    destruct (Z.ltb_spec (Z.max (now w + Z.max 0 interval) (now w)) (now w));
      [lia|].
    replace (Z.max (now w + Z.max 0 interval) (now w)) with (now w) by lia.
    destruct (ties (selects w)); auto. }
  induction j as [|j IH]; intros w Hw Ht.
  - exists 1%nat. eexists. cbn [IntervalRun_loop].
    destruct (Hstep w Hw) as [->|[Hx _]].
    + rewrite (Err_after ctx c) by auto. reflexivity.
    + rewrite Nat.add_0_r in Ht. congruence.
  - destruct (Hstep w Hw) as [Hs|[_ Hs]].
    + exists 1%nat. eexists. cbn [IntervalRun_loop]. rewrite Hs.
      rewrite (Err_after ctx c) by auto. reflexivity.
    + set (w1 := {| now := now w + Z.max 0 (cost a (length (invoked w)));
                    invoked := now w :: invoked w;
                    selects := S (selects w) |}).
      destruct (IH w1) as (fuel & w' & Hrun).
      { simpl. lia. }
      { simpl. rewrite <- Nat.add_succ_r. exact Ht. }
      exists (S fuel), w'. cbn [IntervalRun_loop]. rewrite Hs.
      unfold invoke. rewrite Hok. exact Hrun.
Qed.

(** C4: an action that succeeds on its first [K-1] invocations and fails
    with [e] on invocation [K], under a scope that is live until then, is
    invoked exactly [K] times by [IntervalRun], which returns [e]; under an
    action that never fails the loop of a scope that ends returns the
    scope's error (with a positive interval at the next select at the
    latest; with any interval as soon as the select takes the done case);
    and [IntervalRun] never returns nil: what it returns is the scope's
    error or an error of the action. *)
Theorem IntervalRun_stops_on_failure_or_cancellation
  (interval : Duration) (a : Callee) (ctx : Scope) (ties : nat -> selected)
  (t0 : Z) (K : nat) (e : error)
  (HK : (0 < K)%nat)
  (Hok : forall k, (k < K - 1)%nat -> result a k = None)
  (Hfail : result a (K - 1) = Some e)
  (Hlive : isDone ctx (invocationAt interval a 0 t0 (K - 1)) = false) :
  (exists w',
      (forall fuel, (K <= fuel)%nat ->
         IntervalRun interval a ctx ties fuel (start t0) = Some (Some e, w')) /\
      length (invoked w') = K) /\
  (forall (b : Callee) (scope : Scope) (c t : Z),
      (forall k, result b k = None) ->
      cancelAt scope = Some c ->
      (0 < interval ->
       exists fuel w',
         IntervalRun interval b scope ties fuel (start t) =
         Some (Some (ctxError (cause scope)), w')) /\
      (forall (w : World) (j : nat),
         c <= now w -> ties (selects w + j)%nat = caseDone ->
         exists fuel w',
           IntervalRun interval b scope ties fuel w =
           Some (Some (ctxError (cause scope)), w'))) /\
  (forall (b : Callee) (scope : Scope) (oracle : nat -> selected)
          (fuel : nat) (w : World) (err : option error) (w' : World),
      IntervalRun interval b scope oracle fuel w = Some (err, w') ->
      err <> None /\
      (err = Some (ctxError (cause scope)) \/
       exists k x, result b k = Some x /\ err = Some x) /\
      ((forall k, result b k = None) ->
       err = Some (ctxError (cause scope)))).
Proof.
  split; [|split].
  - destruct K as [|C]; [lia|].
    replace (S C - 1)%nat with C in * by lia.
    destruct (IntervalRun_runs interval a ctx ties C e (start t0))
      as (w' & Hrun & Hinv); auto.
    exists w'. split.
    + intros fuel Hf. unfold IntervalRun.
      apply (IntervalRun_more_fuel _ _ _ _ (S C)); [exact Hrun|lia].
    + rewrite Hinv. simpl invoked. rewrite app_nil_r.
      rewrite length_rev, length_map, length_seq. reflexivity.
  - intros b scope c t Hb Hc. split.
    + intros Hpos.
      apply (IntervalRun_cancel_ends interval b scope ties c Hpos Hc Hb
               (Z.to_nat (c - t)) (start t)).
      simpl. lia.
    + intros w j Hw Hj.
      apply (IntervalRun_done_ends interval b scope ties c Hc Hb j w Hw Hj).
  - intros b scope oracle fuel w err w' H.
    apply IntervalRun_returns in H.
    split; [|split].
    + destruct H as [->|(k & x & _ & ->)]; discriminate.
    + exact H.
    + intros Hb. destruct H as [->|(k & x & Hk & ->)]; [reflexivity|].
      rewrite Hb in Hk. discriminate.
Qed.

Lemma IntervalRun_stops_on_failure_or_cancellation_witness :
  exists w',
    (forall fuel, (3 <= fuel)%nat ->
       IntervalRun 1000
         {| result := fun k => if (k <? 2)%nat then None
                               else Some (errorsNew "boom");
            cost := fun _ => 10 |}
         {| cancelAt := None; cause := Canceled |}
         (fun _ => caseDone) fuel (start 0) =
       Some (Some (errorsNew "boom"), w')) /\
    length (invoked w') = 3%nat.
Proof.
  destruct (IntervalRun_stops_on_failure_or_cancellation 1000
              {| result := fun k => if (k <? 2)%nat then None
                                    else Some (errorsNew "boom");
                 cost := fun _ => 10 |}
              {| cancelAt := None; cause := Canceled |}
              (fun _ => caseDone) 0 3 (errorsNew "boom")) as [H _].
  - lia.
  - intros [|[|k]] Hk; [reflexivity|reflexivity|simpl in Hk; lia].
  - reflexivity.
  - reflexivity.
  - exact H.
Defined.

(** ** WaitOneOf *)

Lemma error_eqb_refl (e : option error) : error_eqb e e = true.
Proof.
  destruct e as [[| |[]|m]|]; simpl; try reflexivity. apply String.eqb_refl.
Qed.

Lemma error_eqb_eq (a b : option error) : error_eqb a b = true -> a = b.
Proof.
  destruct a as [[| |[]|m]|], b as [[| |[]|n]|]; simpl; try congruence.
  intros H. apply String.eqb_eq in H. congruence.
Qed.

Lemma run_snoc fn (tr : list label) (l : label) (s : race) :
  run fn (tr ++ [l]) s =
  match run fn tr s with
  | Some s' => step fn l s'
  | None => None
  end.
Proof.
  revert s. induction tr as [|l' tr IH]; intros s; simpl.
  - destruct (step fn l s); reflexivity.
  - destruct (step fn l' s); auto.
Qed.

Lemma run_app fn (tr1 tr2 : list label) (s : race) :
  run fn (tr1 ++ tr2) s =
  match run fn tr1 s with
  | Some s' => run fn tr2 s'
  | None => None
  end.
Proof.
  revert s. induction tr1 as [|l tr1 IH]; intros s; simpl; [reflexivity|].
  destruct (step fn l s); auto.
Qed.

Lemma deliveries_app (tr1 tr2 : list label) :
  deliveries (tr1 ++ tr2) = deliveries tr1 ++ deliveries tr2.
Proof.
  induction tr1 as [|l tr1 IH]; simpl; [reflexivity|].
  destruct l; simpl; congruence.
Qed.

Lemma pending_app (l1 l2 : list executor) :
  pending (l1 ++ l2) = (pending l1 + pending l2)%nat.
Proof.
  induction l1 as [|x l1 IH]; simpl; [reflexivity|]. rewrite IH. lia.
Qed.

Lemma pending_insert (l : list executor) (k : nat) (x y : executor) :
  l !! k = Some x ->
  (pending (<[k := y]> l) + (if isExited x then 0 else 1) =
   pending l + (if isExited y then 0 else 1))%nat.
Proof.
  revert k. induction l as [|z l IH]; intros k; [discriminate|].
  destruct k as [|k]; simpl.
  - intros [= ->]. lia.
  - intros H. specialize (IH k H). lia.
Qed.

Lemma pending_zero (l : list executor) :
  pending l = 0%nat -> Forall (fun x => x = Exited) l.
Proof.
  induction l as [|x l IH]; simpl; intros H; constructor.
  - destruct x; simpl in H; try lia. reflexivity.
  - apply IH. lia.
Qed.

Lemma outcome_parent fn h0 ds e r h :
  outcome fn h0 ds None r h -> outcome fn h0 ds (Some e) r h.
Proof.
  unfold outcome. destruct ds as [|[k [x|]] [|d ds]]; auto.
  intros (x & Hx & _). discriminate.
Qed.

Lemma raceInv_entry fn (ctx : option ctxErr) (h0 : heap) :
  raceInv fn h0 [] (enter ctx h0).
Proof.
  constructor; simpl; auto.
  - split; [reflexivity|lia].
  - intros k [H|H]; discriminate.
Qed.

(** Steps that leave the list of goroutines alone, or move one of them
    between states that are not [Leaving] or [Exited], keep who has left. *)
Lemma left_later (tr : list label) (l : label) (k : nat) :
  (exists e, In (Deliver k e) tr) \/ In (Abandon k) tr ->
  (exists e, In (Deliver k e) (tr ++ [l])) \/ In (Abandon k) (tr ++ [l]).
Proof.
  intros [(e & H)|H]; [left; exists e|right]; apply in_or_app; auto.
Qed.

Lemma lookup_insert_cases (l : list executor) (i k : nat) (x y : executor) :
  <[i := x]> l !! k = Some y ->
  (k = i /\ y = x) \/ (k <> i /\ l !! k = Some y).
Proof.
  destruct (Nat.eq_dec i k) as [->|Hne].
  - intros H. left. split; [reflexivity|].
    assert (Hlt : (k < length l)%nat).
    { apply lookup_lt_Some in H. rewrite length_insert in H. exact H. }
    rewrite list_lookup_insert_eq in H by exact Hlt. congruence.
  - rewrite list_lookup_insert_ne by exact Hne. auto.
Qed.

Lemma lookup_snoc_old (l : list executor) (x y : executor) (k : nat) :
  (l ++ [x]) !! k = Some y -> y <> x -> l !! k = Some y.
Proof.
  intros H Hne. destruct (Nat.lt_ge_cases k (length l)) as [Hlt|Hge].
  - rewrite lookup_app_l in H by exact Hlt. exact H.
  - rewrite lookup_app_r in H by exact Hge.
    destruct (k - length l)%nat as [|n]; simpl in H;
      [congruence|destruct n; discriminate].
Qed.

Lemma cancelWith_done (e : ctxErr) (c : option ctxErr) :
  cancelWith e c <> None.
Proof. destruct c; simpl; congruence. Qed.

Lemma raceInv_step fn h0 tr l s s' :
  raceInv fn h0 tr s -> step fn l s = Some s' ->
  raceInv fn h0 (tr ++ [l]) s'.
Proof.
  intros [Hwg Hla Hsc Hout Hj Hleft] Hstep.
  assert (Hleft' : forall k,
             executors s !! k = Some Leaving \/
             executors s !! k = Some Exited ->
             (exists e, In (Deliver k e) (tr ++ [l])) \/
             In (Abandon k) (tr ++ [l]))
    by (intros k Hk; apply left_later; auto).
  pose proof (deliveries_app tr [l]) as Hd.
  destruct l as [ | |k|k err|k|k| |e| | ]; simpl in Hstep, Hd;
    rewrite ?app_nil_r in Hd.
  - (* Spawn *)
    destruct (coord s) as [idx| | | |] eqn:Ec; try discriminate.
    destruct (idx <? length (actions fn))%nat eqn:Elt; [|discriminate].
    injection Hstep as <-. apply Nat.ltb_lt in Elt.
    destruct Hla as [Hlen _].
    constructor; simpl; rewrite ?Hd; auto.
    + rewrite pending_app. simpl. lia.
    + rewrite length_app. simpl. lia.
    + intros k [Hk|Hk]; apply Hleft';
        apply lookup_snoc_old in Hk; auto; discriminate.
  - (* LoopExit *)
    destruct (coord s) as [idx| | | |] eqn:Ec; try discriminate.
    destruct (idx <? length (actions fn))%nat eqn:Elt; [discriminate|].
    injection Hstep as <-. apply Nat.ltb_ge in Elt.
    destruct Hla as [Hlen Hle].
    constructor; simpl; rewrite ?Hd; auto. lia.
  - (* ActionReturns *)
    destruct (executors s !! k) as [[]|] eqn:Ek; try discriminate.
    destruct (actions fn !! k) as [action|]; [|discriminate].
    destruct (action (derived s)) as [err|]; [|discriminate].
    injection Hstep as <-.
    pose proof (pending_insert _ _ _ (Sending err) Ek) as Hp. simpl in Hp.
    constructor; simpl; rewrite ?Hd, ?length_insert; auto.
    + lia.
    + intros j Hj'. apply Hleft'.
      destruct Hj' as [Hx|Hx]; apply lookup_insert_cases in Hx;
        destruct Hx as [[_ Hx]|[_ Hx]]; try discriminate; auto.
  - (* Deliver *)
    destruct (coord s) eqn:Ec; try discriminate.
    destruct (executors s !! k) as [[|err'| |]|] eqn:Ek; try discriminate.
    destruct (error_eqb err err') eqn:Ee; [|discriminate].
    apply error_eqb_eq in Ee. subst err'.
    pose proof (pending_insert _ _ _ Leaving Ek) as Hp. simpl in Hp.
    pose proof (lookup_lt_Some _ _ _ Ek) as Hlt.
    destruct Hout as [Hnone Hmem].
    assert (Hl : forall j,
               <[k := Leaving]> (executors s) !! j = Some Leaving \/
               <[k := Leaving]> (executors s) !! j = Some Exited ->
               (exists e, In (Deliver j e) (tr ++ [Deliver k err])) \/
               In (Abandon j) (tr ++ [Deliver k err])).
    { intros j Hj'.
      destruct Hj' as [Hx|Hx]; apply lookup_insert_cases in Hx;
        destruct Hx as [[-> Hx]|[_ Hx]]; try discriminate; auto.
      left. exists err. apply in_or_app. simpl. auto. }
    unfold received in Hstep. destruct err as [e|];
      injection Hstep as <-;
      constructor; simpl; rewrite ?Hd, ?Hnone, ?length_insert; simpl; auto;
      try lia.
    split; [reflexivity|]. split; [lia|]. rewrite Hmem. reflexivity.
  - (* Abandon *)
    destruct (executors s !! k) as [[|err| |]|] eqn:Ek; try discriminate.
    destruct (derived s) as [e|] eqn:Ed; [|discriminate].
    injection Hstep as <-.
    pose proof (pending_insert _ _ _ Leaving Ek) as Hp. simpl in Hp.
    constructor; simpl; rewrite ?Hd, ?length_insert, ?Ed; auto.
    + lia.
    + intros j Hj'.
      destruct Hj' as [Hx|Hx]; apply lookup_insert_cases in Hx;
        destruct Hx as [[-> Hx]|[_ Hx]]; try discriminate; auto.
      right. apply in_or_app. simpl. auto.
  - (* WgDone *)
    destruct (executors s !! k) as [[]|] eqn:Ek; try discriminate.
    injection Hstep as <-.
    pose proof (pending_insert _ _ _ Exited Ek) as Hp. simpl in Hp.
    constructor; simpl; rewrite ?Hd, ?length_insert; auto.
    + lia.
    + destruct (coord s); auto. lia.
    + intros j Hj'.
      destruct Hj' as [Hx|Hx]; apply lookup_insert_cases in Hx;
        destruct Hx as [[-> Hx]|[_ Hx]]; try discriminate; auto.
  - (* TakeDone *)
    destruct (coord s) eqn:Ec; try discriminate.
    destruct (derived s) as [e|] eqn:Ed; [|discriminate].
    injection Hstep as <-. destruct Hout as [Hnone Hmem].
    constructor; simpl; rewrite ?Hd, ?Ec, ?Ed, ?Hnone; simpl; auto.
    exists e. auto.
  - (* CancelParent *)
    destruct (parent s) eqn:Ep; [discriminate|].
    injection Hstep as <-.
    constructor; simpl; rewrite ?Hd; auto.
    + destruct (coord s); try apply cancelWith_done;
        rewrite Hsc; reflexivity.
    + destruct (coord s); auto using outcome_parent.
  - (* DeferCancel *)
    destruct (coord s) eqn:Ec; try discriminate.
    injection Hstep as <-.
    constructor; simpl; rewrite ?Hd, ?Ec; auto.
    apply cancelWith_done.
  - (* DeferWait *)
    destruct (coord s) eqn:Ec; try discriminate.
    destruct (Nat.eqb_spec (wg s) 0); [|discriminate].
    injection Hstep as <-.
    constructor; simpl; rewrite ?Hd, ?Ec; auto.
Qed.

Lemma raceInv_run fn ctx h0 tr s :
  run fn tr (enter ctx h0) = Some s -> raceInv fn h0 tr s.
Proof.
  revert s. induction tr as [|l tr IH] using rev_ind; intros s.
  - intros [= <-]. apply raceInv_entry.
  - rewrite run_snoc.
    destruct (run fn tr (enter ctx h0)) as [s1|]; [|discriminate].
    intros H. eapply raceInv_step; eauto.
Qed.

(** C2: when the action built by [WaitOneOf] returns, what it returns and
    what it leaves in memory follow from what the coordinator was handed on
    [retC], which is at most one outcome: handed a failure, it returns that
    error and memory is as it was; handed a success of the action at
    position [k], it returns nil and memory differs at most in the cell of a
    non-nil [waitIdx], which holds [k]; handed nothing, it took the done
    case, the caller's scope is done, it returns the scope's error and
    memory is as it was. *)
Theorem WaitOneOf_result
  (waitIdx : pointer) (acts : list Racer) (fn : raceFunc)
  (ctx : option ctxErr) (h0 : heap) (tr : list label) (s : race)
  (r : option error)
  (Hfn : WaitOneOf waitIdx acts = Built fn)
  (Hrun : run fn tr (enter ctx h0) = Some s)
  (Hret : coord s = Returned r) :
  match deliveries tr with
  | [] => exists e, parent s = Some e /\ r = Some (ctxError e) /\ mem s = h0
  | (k, Some e) :: later => r = Some e /\ mem s = h0 /\ later = []
  | (k, None) :: later =>
      r = None /\ (k < length acts)%nat /\
      mem s = match waitIdx with
              | Some p => store h0 p (Z.of_nat k)
              | None => h0
              end /\
      later = []
  end.
Proof.
  unfold WaitOneOf in Hfn.
  destruct (Nat.eqb (length acts) 0); [discriminate|].
  injection Hfn as <-.
  pose proof (raceInv_run _ _ _ _ _ Hrun) as [_ _ _ Hout _ _].
  rewrite Hret in Hout. unfold outcome in Hout. simpl in Hout.
  destruct (deliveries tr) as [|[k [e|]] [|d ds]]; try contradiction; auto.
  - destruct Hout as [? ?]. auto.
  - destruct Hout as (? & ? & ?). auto.
Qed.

Lemma WaitOneOf_result_witness :
  exists s,
    run {| waitIdx := Some 0%nat;
           actions := [fun c => option_map Some (option_map ctxError c);
                       fun _ => Some None] |}
      [Spawn; Spawn; LoopExit; ActionReturns 1; Deliver 1 None; DeferCancel;
       ActionReturns 0; Abandon 0; WgDone 0; WgDone 1; DeferWait]
      (enter None (fun _ => 0)) = Some s /\
    coord s = Returned None /\
    mem s = store (fun _ => 0) 0 1.
Proof.
  eexists. split; [reflexivity|]. split; [reflexivity|].
  apply (WaitOneOf_result (Some 0%nat)
           [fun c => option_map Some (option_map ctxError c);
            fun _ => Some None]
           {| waitIdx := Some 0%nat;
              actions := [fun c => option_map Some (option_map ctxError c);
                          fun _ => Some None] |}
           None (fun _ => 0)
           [Spawn; Spawn; LoopExit; ActionReturns 1; Deliver 1 None;
            DeferCancel; ActionReturns 0; Abandon 0; WgDone 0; WgDone 1;
            DeferWait]
           _ None eq_refl eq_refl eq_refl).
Defined.

Lemma leave_by_deliver fn (s : race) (k : nat) (e : option error) :
  coord s = Selecting -> executors s !! k = Some (Sending e) ->
  exists s', run fn [Deliver k e; WgDone k] s = Some s' /\
             executors s' !! k = Some Exited.
Proof.
  intros Hc Hk. pose proof (lookup_lt_Some _ _ _ Hk) as Hlt.
  simpl. rewrite Hc, Hk, error_eqb_refl.
  destruct (received (waitIdx fn) k e (mem s)) as [r h]. simpl.
  rewrite list_lookup_insert_eq by exact Hlt.
  eexists. split; [reflexivity|]. simpl.
  apply list_lookup_insert_eq. rewrite length_insert. exact Hlt.
Qed.

Lemma leave_by_abandon fn (s : race) (k : nat) (e : option error) :
  derived s <> None -> executors s !! k = Some (Sending e) ->
  exists s', run fn [Abandon k; WgDone k] s = Some s' /\
             executors s' !! k = Some Exited.
Proof.
  intros Hd Hk. pose proof (lookup_lt_Some _ _ _ Hk) as Hlt.
  simpl. rewrite Hk. destruct (derived s); [|contradiction]. simpl.
  rewrite list_lookup_insert_eq by exact Hlt.
  eexists. split; [reflexivity|]. simpl.
  apply list_lookup_insert_eq. rewrite length_insert. exact Hlt.
Qed.

(** From any point of the launch loop the coordinator reaches its select by
    steps of its own, and the goroutines already launched are as they
    were. *)
Lemma spawn_rest fn (m : nat) :
  forall (s : race) (idx : nat),
    coord s = Launching idx ->
    (idx + m = length (actions fn))%nat ->
    exists s',
      run fn (replicate m Spawn ++ [LoopExit]) s = Some s' /\
      coord s' = Selecting /\ derived s' = derived s /\
      forall k x, executors s !! k = Some x -> executors s' !! k = Some x.
Proof.
  induction m as [|m IH]; intros s idx Hc Hn.
  - simpl. rewrite Hc.
    destruct (Nat.ltb_spec idx (length (actions fn))); [lia|].
    eexists. split; [reflexivity|]. simpl. auto.
  - simpl. rewrite Hc.
    destruct (Nat.ltb_spec idx (length (actions fn))); [|lia].
    set (s1 := {| parent := parent s; derived := derived s; wg := S (wg s);
                  executors := executors s ++ [Running];
                  coord := Launching (S idx); mem := mem s |}).
    destruct (IH s1 (S idx)) as (s' & Hrun & Hs & Hd & Hx);
      [reflexivity|lia|].
    exists s'. split; [exact Hrun|]. split; [exact Hs|]. split; [exact Hd|].
    intros k x Hk. apply Hx. simpl. apply lookup_app_l_Some, Hk.
Qed.

Lemma Forall_coordinator_spawns (m : nat) :
  Forall coordinatorStep (replicate m Spawn ++ [LoopExit]).
Proof.
  induction m as [|m IH]; simpl; constructor; unfold coordinatorStep; auto.
Qed.

(** A goroutine blocked in its send stays there until it delivers or
    abandons, and a done scope stays done. *)
Lemma sending_stable fn (l : label) (s s1 : race) (k : nat)
  (e : option error) :
  step fn l s = Some s1 -> executors s !! k = Some (Sending e) ->
  (executors s1 !! k = Some (Sending e) /\
   (derived s <> None -> derived s1 <> None)) \/
  executors s1 !! k = Some Leaving.
Proof.
  intros Hstep Hk. pose proof (lookup_lt_Some _ _ _ Hk) as Hlt.
  assert (Hother : forall j x,
             j <> k -> <[j := x]> (executors s) !! k = Some (Sending e))
    by (intros j x Hne; rewrite list_lookup_insert_ne by exact Hne; exact Hk).
  destruct l as [ | |j|j err|j|j| |x| | ]; simpl in Hstep.
  - destruct (coord s); try discriminate.
    destruct (_ <? _)%nat; [|discriminate]. injection Hstep as <-. simpl.
    left. split; [apply lookup_app_l_Some, Hk|auto].
  - destruct (coord s); try discriminate.
    destruct (_ <? _)%nat; [discriminate|]. injection Hstep as <-. auto.
  - destruct (executors s !! j) as [[]|] eqn:Ej; try discriminate.
    destruct (actions fn !! j) as [action|]; [|discriminate].
    destruct (action (derived s)); [|discriminate].
    injection Hstep as <-. simpl. left. split; [|auto].
    apply Hother. congruence.
  - destruct (coord s); try discriminate.
    destruct (executors s !! j) as [[|err'| |]|] eqn:Ej; try discriminate.
    destruct (error_eqb err err'); [|discriminate].
    destruct (received (waitIdx fn) j err' (mem s)) as [r h].
    injection Hstep as <-. simpl.
    destruct (Nat.eq_dec j k) as [->|Hne].
    + right. apply list_lookup_insert_eq, Hlt.
    + left. split; [apply Hother, Hne|auto].
  - destruct (executors s !! j) as [[|err'| |]|] eqn:Ej; try discriminate.
    destruct (derived s) eqn:Ed; [|discriminate].
    injection Hstep as <-. simpl.
    destruct (Nat.eq_dec j k) as [->|Hne].
    + right. apply list_lookup_insert_eq, Hlt.
    + left. split; [apply Hother, Hne|congruence].
  - destruct (executors s !! j) as [[]|] eqn:Ej; try discriminate.
    injection Hstep as <-. simpl. left. split; [|auto].
    apply Hother. congruence.
  - destruct (coord s); try discriminate.
    destruct (derived s) eqn:Ed; [|discriminate]. injection Hstep as <-.
    simpl. left. split; [exact Hk|congruence].
  - destruct (parent s); [discriminate|]. injection Hstep as <-. simpl.
    left. split; [exact Hk|]. intros _. apply cancelWith_done.
  - destruct (coord s); try discriminate. injection Hstep as <-. simpl.
    left. split; [exact Hk|]. intros _. apply cancelWith_done.
  - destruct (coord s); try discriminate.
    destruct (Nat.eqb (wg s) 0); [|discriminate]. injection Hstep as <-. auto.
Qed.

(** C8: in every race, a goroutine that is past its select handed its
    outcome over on [retC] or took the done case of the derived context,
    which it can only do once that context is done; a goroutine blocked in
    its select is never stuck there: once the derived context is done it can
    abandon at once, and in any case steps of the coordinator alone lead to
    a state where it delivers or abandons and then terminates, while every
    other step leaves it ready to do so; and the call returns only when the
    WaitGroup counter is zero, with all [len(actions)] goroutines launched
    and terminated. *)
Theorem WaitOneOf_executors_never_leak
  (fn : raceFunc) (ctx : option ctxErr) (h0 : heap) (tr : list label)
  (s : race)
  (Hrun : run fn tr (enter ctx h0) = Some s) :
  (forall k,
      executors s !! k = Some Leaving \/ executors s !! k = Some Exited ->
      (exists e, In (Deliver k e) tr) \/ In (Abandon k) tr) /\
  (forall k s0, step fn (Abandon k) s0 <> None -> derived s0 <> None) /\
  (forall k e,
      executors s !! k = Some (Sending e) ->
      (derived s <> None ->
       step fn (Abandon k) s = Some (setExecutor k Leaving s)) /\
      (exists tr' l s',
          Forall coordinatorStep tr' /\
          (l = Deliver k e \/ l = Abandon k) /\
          run fn (tr' ++ [l; WgDone k]) s = Some s' /\
          executors s' !! k = Some Exited) /\
      (forall l s1,
          step fn l s = Some s1 ->
          (executors s1 !! k = Some (Sending e) /\
           (derived s <> None -> derived s1 <> None)) \/
          executors s1 !! k = Some Leaving)) /\
  (forall r,
      coord s = Returned r ->
      wg s = 0%nat /\
      length (executors s) = length (actions fn) /\
      Forall (fun x => x = Exited) (executors s)).
Proof.
  pose proof (raceInv_run _ _ _ _ _ Hrun) as [Hwg Hla Hsc Hout Hj Hleft].
  split; [exact Hleft|]. split; [|split].
  - intros k s0. simpl.
    destruct (executors s0 !! k) as [[]|]; try congruence.
    destruct (derived s0); congruence.
  - intros k e Hk. split; [|split].
    + intros Hd. simpl. rewrite Hk.
      destruct (derived s); [reflexivity|contradiction].
    + destruct (derived s) as [c|] eqn:Ed.
      * destruct (leave_by_abandon fn s k e) as (s' & Hr & Hx);
          [congruence|exact Hk|].
        exists [], (Abandon k), s'. repeat split; auto.
      * destruct (coord s) as [idx| |r|r|r] eqn:Ec.
        -- destruct Hla as [Hlen Hle].
           destruct (spawn_rest fn (length (actions fn) - idx) s idx)
             as (s1 & Hr1 & Hc1 & Hd1 & Hx1); [exact Ec|lia|].
           destruct (leave_by_deliver fn s1 k e) as (s' & Hr & Hx);
             [exact Hc1|apply Hx1, Hk|].
           exists (replicate (length (actions fn) - idx) Spawn ++ [LoopExit]),
             (Deliver k e), s'.
           split; [apply Forall_coordinator_spawns|].
           split; [auto|]. split; [|exact Hx].
           rewrite run_app, Hr1. exact Hr.
        -- destruct (leave_by_deliver fn s k e) as (s' & Hr & Hx);
             [exact Ec|exact Hk|].
           exists [], (Deliver k e), s'. repeat split; auto.
        -- set (s1 := {| parent := parent s;
                         derived := cancelWith Canceled (derived s);
                         wg := wg s; executors := executors s;
                         coord := Joining r; mem := mem s |}).
           destruct (leave_by_abandon fn s1 k e) as (s' & Hr & Hx);
             [apply cancelWith_done|exact Hk|].
           exists [DeferCancel], (Abandon k), s'.
           split; [constructor; [unfold coordinatorStep; auto|constructor]|].
           split; [auto|]. split; [|exact Hx].
           assert (Hs : step fn DeferCancel s = Some s1)
             by (simpl; rewrite Ec; reflexivity).
           change (match step fn DeferCancel s with
                   | Some s2 => run fn [Abandon k; WgDone k] s2
                   | None => None
                   end = Some s').
           rewrite Hs. exact Hr.
        -- contradiction.
        -- contradiction.
    + intros l s1 Hstep. eapply sending_stable; eauto.
  - intros r Hr. rewrite Hr in Hla, Hj.
    split; [exact Hj|]. split; [exact Hla|].
    apply pending_zero. congruence.
Qed.

Lemma WaitOneOf_executors_never_leak_witness :
  exists s,
    run {| waitIdx := None;
           actions := [fun _ => Some (Some (errorsNew "failed"));
                       fun _ => Some None] |}
      [Spawn; ActionReturns 0; Spawn; ActionReturns 1; LoopExit;
       Deliver 1 None; DeferCancel; Abandon 0; WgDone 1; WgDone 0; DeferWait]
      (enter None (fun _ => 0)) = Some s /\
    wg s = 0%nat /\
    Forall (fun x => x = Exited) (executors s).
Proof.
  eexists. split; [reflexivity|].
  destruct (WaitOneOf_executors_never_leak
              {| waitIdx := None;
                 actions := [fun _ => Some (Some (errorsNew "failed"));
                             fun _ => Some None] |}
              None (fun _ => 0)
              [Spawn; ActionReturns 0; Spawn; ActionReturns 1; LoopExit;
               Deliver 1 None; DeferCancel; Abandon 0; WgDone 1; WgDone 0;
               DeferWait]
              _ eq_refl) as (_ & _ & _ & H).
  destruct (H None eq_refl) as (H1 & _ & H3).
  split; [exact H1|exact H3].
Defined.

(** ** History navigation *)

Lemma int64_small (z : Z) : - 2 ^ 63 <= z < 2 ^ 63 -> int64 z = z.
Proof.
  intros H. unfold int64. rewrite Z.mod_small; lia.
Qed.

Lemma index_in_range {A : Type} (l : list A) (i : Z) :
  0 <= i < Z.of_nat (length l) -> exists x, index l i = Some x.
Proof.
  intros H. unfold index. destruct (Z.ltb_spec i 0); [lia|].
  destruct (lookup_lt_is_Some_2 l (Z.to_nat i)) as [x Hx]; [lia|].
  exists x. exact Hx.
Qed.

Lemma toEntry_in_range b (l : list (option NavigationEntry)) (i : Z) ctx opts :
  0 <= i < Z.of_nat (length l) ->
  toEntry b (index l i) ctx opts <> Panic "index out of range" /\
  forall entry,
    l !! Z.to_nat i = Some (Some entry) ->
    toEntry b (index l i) ctx opts =
    match answer b (reqNavigateToHistoryEntry (ID entry)) with
    | Some e =>
        Built (ReturnsEarly (Some (reqNavigateToHistoryEntry (ID entry))) e)
    | None =>
        Built (EntersWait (Some (reqNavigateToHistoryEntry (ID entry)))
                 (waitNavEvent ctx opts))
    end.
Proof.
  intros H. destruct (index_in_range l i H) as [x Hx]. rewrite Hx.
  split.
  - destruct x as [entry|]; simpl; [|discriminate].
    destruct (answer b _); discriminate.
  - intros entry He. unfold index in Hx.
    destruct (Z.ltb_spec i 0); [lia|]. rewrite He in Hx.
    injection Hx as <-. reflexivity.
Qed.

Lemma NavigateBack_stays_in_range_aux
  (cur : Z) (entries : list (option NavigationEntry))
  (answers : request -> option error)
  (ctx : option ctxErr) (opts : list NavigateOption)
  (Hlen : Z.of_nat (length entries) < 2 ^ 63) :
  let b := {| history := (cur, entries, None); answer := answers |} in
  (cur <= 0 \/ Z.of_nat (length entries) <= cur <->
   NavigateBack b ctx opts = invalidEntry) /\
  NavigateBack b ctx opts <> Panic "index out of range" /\
  (0 < cur < Z.of_nat (length entries) ->
   forall entry,
     entries !! Z.to_nat (cur - 1) = Some (Some entry) ->
     NavigateBack b ctx opts =
     match answers (reqNavigateToHistoryEntry (ID entry)) with
     | Some e =>
         Built (ReturnsEarly (Some (reqNavigateToHistoryEntry (ID entry))) e)
     | None =>
         Built (EntersWait (Some (reqNavigateToHistoryEntry (ID entry)))
                  (waitNavEvent ctx opts))
     end).
Proof.
  intros b. unfold NavigateBack, invalidEntry. simpl.
  rewrite (int64_small (Z.of_nat (length entries) - 1)) by lia.
  destruct (Z.leb_spec cur 0) as [H0|H0]; simpl.
  - split; [split; auto|]. split; [discriminate|lia].
  - destruct (Z.gtb_spec cur (Z.of_nat (length entries) - 1)) as [H1|H1].
    + split; [split; intros; auto; lia|]. split; [discriminate|lia].
    + rewrite (int64_small (cur - 1)) by lia.
      destruct (toEntry_in_range b entries (cur - 1) ctx opts) as [Hp He];
        [lia|].
      split; [|split; [exact Hp|intros _; exact He]].
      split; [lia|]. intros Hx.
      destruct (index_in_range entries (cur - 1)) as [x Hi]; [lia|].
      rewrite Hi in Hx. destruct x as [entry|]; simpl in Hx; [|discriminate].
      destruct (answers _); discriminate.
Qed.

(** X1: [NavigateBack], once the history is read, refuses with
    "invalid navigation entry" and sends nothing exactly when the current
    index is not positive or is not below the number of entries; otherwise
    the entry before the current one exists, so indexing never goes out of
    range, and a non-nil entry there is the one requested. *)
Theorem NavigateBack_stays_in_range
  (cur : Z) (entries : list (option NavigationEntry))
  (answers : request -> option error)
  (ctx : option ctxErr) (opts : list NavigateOption)
  (Hlen : Z.of_nat (length entries) < 2 ^ 63) :
  let b := {| history := (cur, entries, None); answer := answers |} in
  (cur <= 0 \/ Z.of_nat (length entries) <= cur <->
   NavigateBack b ctx opts = invalidEntry) /\
  NavigateBack b ctx opts <> Panic "index out of range" /\
  (0 < cur < Z.of_nat (length entries) ->
   forall entry,
     entries !! Z.to_nat (cur - 1) = Some (Some entry) ->
     NavigateBack b ctx opts =
     match answers (reqNavigateToHistoryEntry (ID entry)) with
     | Some e =>
         Built (ReturnsEarly (Some (reqNavigateToHistoryEntry (ID entry))) e)
     | None =>
         Built (EntersWait (Some (reqNavigateToHistoryEntry (ID entry)))
                  (waitNavEvent ctx opts))
     end).
Proof.
  exact (NavigateBack_stays_in_range_aux cur entries answers ctx opts Hlen).
Qed.

Lemma NavigateBack_stays_in_range_witness :
  NavigateBack
    {| history := (1, [Some {| ID := 7 |}; Some {| ID := 9 |}], None);
       answer := fun _ => Some (errorsNew "refused") |}
    None [] <> Panic "index out of range".
Proof.
  apply (NavigateBack_stays_in_range 1
           [Some {| ID := 7 |}; Some {| ID := 9 |}]
           (fun _ => Some (errorsNew "refused")) None []).
  simpl. lia.
Defined.

Lemma NavigateForward_stays_in_range_aux
  (cur : Z) (entries : list (option NavigationEntry))
  (answers : request -> option error)
  (ctx : option ctxErr) (opts : list NavigateOption)
  (Hlen : Z.of_nat (length entries) < 2 ^ 63) :
  let b := {| history := (cur, entries, None); answer := answers |} in
  (cur < 0 \/ Z.of_nat (length entries) - 1 <= cur <->
   NavigateForward b ctx opts = invalidEntry) /\
  NavigateForward b ctx opts <> Panic "index out of range" /\
  (0 <= cur < Z.of_nat (length entries) - 1 ->
   forall entry,
     entries !! Z.to_nat (cur + 1) = Some (Some entry) ->
     NavigateForward b ctx opts =
     match answers (reqNavigateToHistoryEntry (ID entry)) with
     | Some e =>
         Built (ReturnsEarly (Some (reqNavigateToHistoryEntry (ID entry))) e)
     | None =>
         Built (EntersWait (Some (reqNavigateToHistoryEntry (ID entry)))
                  (waitNavEvent ctx opts))
     end).
Proof.
  intros b. unfold NavigateForward, invalidEntry. simpl.
  rewrite (int64_small (Z.of_nat (length entries) - 1)) by lia.
  destruct (Z.ltb_spec cur 0) as [H0|H0]; simpl.
  - split; [split; auto|]. split; [discriminate|lia].
  - destruct (Z.geb_spec cur (Z.of_nat (length entries) - 1)) as [H1|H1].
    + split; [split; intros; auto; lia|]. split; [discriminate|lia].
    + rewrite (int64_small (cur + 1)) by lia.
      destruct (toEntry_in_range b entries (cur + 1) ctx opts) as [Hp He];
        [lia|].
      split; [|split; [exact Hp|intros _; exact He]].
      split; [lia|]. intros Hx.
      destruct (index_in_range entries (cur + 1)) as [x Hi]; [lia|].
      rewrite Hi in Hx. destruct x as [entry|]; simpl in Hx; [|discriminate].
      destruct (answers _); discriminate.
Qed.

(** X2: [NavigateForward], once the history is read, refuses with
    "invalid navigation entry" and sends nothing exactly when the current
    index is negative or is the last index or beyond (in particular on an
    empty history); otherwise the entry after the current one exists, so
    indexing never goes out of range, and a non-nil entry there is the one
    requested. *)
Theorem NavigateForward_stays_in_range
  (cur : Z) (entries : list (option NavigationEntry))
  (answers : request -> option error)
  (ctx : option ctxErr) (opts : list NavigateOption)
  (Hlen : Z.of_nat (length entries) < 2 ^ 63) :
  let b := {| history := (cur, entries, None); answer := answers |} in
  (cur < 0 \/ Z.of_nat (length entries) - 1 <= cur <->
   NavigateForward b ctx opts = invalidEntry) /\
  NavigateForward b ctx opts <> Panic "index out of range" /\
  (0 <= cur < Z.of_nat (length entries) - 1 ->
   forall entry,
     entries !! Z.to_nat (cur + 1) = Some (Some entry) ->
     NavigateForward b ctx opts =
     match answers (reqNavigateToHistoryEntry (ID entry)) with
     | Some e =>
         Built (ReturnsEarly (Some (reqNavigateToHistoryEntry (ID entry))) e)
     | None =>
         Built (EntersWait (Some (reqNavigateToHistoryEntry (ID entry)))
                  (waitNavEvent ctx opts))
     end).
Proof.
  exact (NavigateForward_stays_in_range_aux cur entries answers ctx opts Hlen).
Qed.

Lemma NavigateForward_stays_in_range_witness :
  NavigateForward
    {| history := (0, [Some {| ID := 7 |}; Some {| ID := 9 |}], None);
       answer := fun _ => None |}
    None [] <> Panic "index out of range".
Proof.
  apply (NavigateForward_stays_in_range 0
           [Some {| ID := 7 |}; Some {| ID := 9 |}]
           (fun _ => None) None []).
  simpl. lia.
Defined.

(** X3: going back and going forward undo each other on the history: when
    [NavigateBack] is not refused at index [cur], [NavigateForward] at the
    index it moved to, [cur - 1], is not refused and requests the entry that
    was current; and when [NavigateForward] is not refused at [cur],
    [NavigateBack] at [cur + 1] requests the entry that was current. *)
Theorem NavigateBack_NavigateForward_undo
  (cur : Z) (entries : list (option NavigationEntry))
  (answers : request -> option error)
  (ctx : option ctxErr) (opts : list NavigateOption)
  (entry : NavigationEntry)
  (Hlen : Z.of_nat (length entries) < 2 ^ 63)
  (Hcur : index entries cur = Some (Some entry)) :
  let at_ i := {| history := (i, entries, None); answer := answers |} in
  let asks :=
    match answers (reqNavigateToHistoryEntry (ID entry)) with
    | Some e =>
        Built (ReturnsEarly (Some (reqNavigateToHistoryEntry (ID entry))) e)
    | None =>
        Built (EntersWait (Some (reqNavigateToHistoryEntry (ID entry)))
                 (waitNavEvent ctx opts))
    end in
  (NavigateBack (at_ cur) ctx opts <> invalidEntry ->
   NavigateForward (at_ (cur - 1)) ctx opts = asks) /\
  (NavigateForward (at_ cur) ctx opts <> invalidEntry ->
   NavigateBack (at_ (cur + 1)) ctx opts = asks).
Proof.
  intros at_ asks.
  assert (Hin : 0 <= cur /\ entries !! Z.to_nat cur = Some (Some entry)).
  { unfold index in Hcur. destruct (Z.ltb_spec cur 0); [discriminate|auto]. }
  destruct Hin as [H0 He].
  pose proof (lookup_lt_Some _ _ _ He) as Hlt.
  split; intros Hok.
  - destruct (NavigateBack_stays_in_range_aux cur entries answers ctx opts Hlen)
      as [Hinv _].
    assert (0 < cur) by (destruct (Z_lt_le_dec 0 cur); [assumption|];
                         exfalso; apply Hok, Hinv; lia).
    destruct (NavigateForward_stays_in_range_aux (cur - 1) entries answers
                ctx opts Hlen) as (_ & _ & Hreq).
    apply Hreq; [lia|].
    replace (cur - 1 + 1) with cur by lia. exact He.
  - destruct (NavigateForward_stays_in_range_aux cur entries answers ctx opts
                Hlen) as [Hinv _].
    assert (cur < Z.of_nat (length entries) - 1)
      by (destruct (Z_lt_le_dec cur (Z.of_nat (length entries) - 1));
          [assumption|]; exfalso; apply Hok, Hinv; lia).
    destruct (NavigateBack_stays_in_range_aux (cur + 1) entries answers
                ctx opts Hlen) as (_ & _ & Hreq).
    apply Hreq; [lia|].
    replace (cur + 1 - 1) with cur by lia. exact He.
Qed.

Lemma NavigateBack_NavigateForward_undo_witness :
  NavigateForward
    {| history := (1 - 1, [Some {| ID := 7 |}; Some {| ID := 9 |}], None);
       answer := fun _ => Some (errorsNew "refused") |} None [] =
  Built (ReturnsEarly (Some (reqNavigateToHistoryEntry 9))
           (errorsNew "refused")).
Proof.
  apply (NavigateBack_NavigateForward_undo 1
           [Some {| ID := 7 |}; Some {| ID := 9 |}]
           (fun _ => Some (errorsNew "refused")) None [] {| ID := 9 |}).
  - simpl. lia.
  - reflexivity.
  - discriminate.
Defined.

(** ** Spacing of invocations *)

Lemma select_time (ctx : Scope) (tm t t' : Z) (tie x : selected) :
  selectDoneTimer ctx tm tie t = (x, t') ->
  t <= t' /\ (x = caseTimer -> tm <= t').
Proof.
  unfold selectDoneTimer.
  destruct (cancelAt ctx) as [c|].
  - destruct (Z.ltb_spec (Z.max c t) (Z.max tm t)).
    + intros [= <- <-]. split; [lia|discriminate].
    + destruct (Z.ltb_spec (Z.max tm t) (Z.max c t));
        intros [= <- <-]; split; lia.
  - intros [= <- <-]. split; lia.
Qed.

Lemma settled_start (d : Duration) (c : Callee) (t0 : Z) :
  settled d c t0 (start t0).
Proof.
  unfold settled. simpl. repeat split; auto. lia.
Qed.

Lemma settled_cancelled d c t0 w t :
  settled d c t0 w -> now w <= t -> settled d c t0 (cancelled t w).
Proof.
  unfold settled. simpl. intros (Hs & Hf & Ht & Hn) Hle.
  repeat split; auto; [lia|]. destruct (invoked w); [exact I|lia].
Qed.

Lemma settled_invoke d c t0 w t :
  settled d c t0 w -> now w + Z.max 0 d <= t ->
  settled d c t0 (snd (invoke c t w)).
Proof.
  unfold settled. simpl. intros (Hs & Hf & Ht & Hn) Hle.
  split; [|split; [|split]].
  - split; [|exact Hs]. destruct (invoked w); [exact I|lia].
  - constructor; [lia|exact Hf].
  - lia.
  - lia.
Qed.

Lemma WaitUntil_settled f ctx ties t0 fuel :
  forall w res w',
    settled (50 * Millisecond) f t0 w ->
    WaitUntil f ctx ties fuel w = Some (res, w') ->
    settled (50 * Millisecond) f t0 w'.
Proof.
  induction fuel as [|fuel IH]; intros w res w' Hw; [discriminate|].
  cbn [WaitUntil].
  destruct (selectDoneTimer ctx (NewTimer (50 * Millisecond) (now w))
              (ties (selects w)) (now w)) as [x t] eqn:Es.
  destruct (select_time _ _ _ _ _ _ Es) as [Ht Htm].
  destruct x.
  - intros [= _ <-]. apply settled_cancelled; assumption.
  - pose proof (settled_invoke _ f t0 w t Hw (Htm eq_refl)) as Hw1.
    unfold invoke in *. simpl in Hw1.
    destruct (error_eqb (result f (length (invoked w)))
                (Some ErrContinueWait)).
    + intros H. eapply IH; [exact Hw1|exact H].
    + intros [= _ <-]. exact Hw1.
Qed.

Lemma IntervalRun_settled interval a ctx ties t0 fuel :
  forall w res w',
    settled interval a t0 w ->
    IntervalRun_loop interval a ctx ties fuel
      (NewTimer interval (now w)) w = Some (res, w') ->
    settled interval a t0 w'.
Proof.
  induction fuel as [|fuel IH]; intros w res w' Hw; [discriminate|].
  cbn [IntervalRun_loop].
  destruct (selectDoneTimer ctx (NewTimer interval (now w))
              (ties (selects w)) (now w)) as [x t] eqn:Es.
  destruct (select_time _ _ _ _ _ _ Es) as [Ht Htm].
  destruct x.
  - intros [= _ <-]. apply settled_cancelled; assumption.
  - pose proof (settled_invoke _ a t0 w t Hw (Htm eq_refl)) as Hw1.
    unfold invoke in *. simpl in Hw1.
    destruct (result a (length (invoked w))).
    + intros [= _ <-]. exact Hw1.
    + intros H. eapply IH; [exact Hw1|exact H].
Qed.

(** X4: however [WaitUntil] ends (a result of the predicate or the end of
    the scope), for every predicate, scope and schedule, its invocations of
    the predicate never overlap: the first begins no earlier than 50ms after
    the start, each later one no earlier than 50ms after the previous one
    returned, and the loop returns after the last one has returned. *)
Theorem WaitUntil_invocations_never_overlap
  (f : Callee) (ctx : Scope) (ties : nat -> selected) (t0 : Z) (fuel : nat)
  (res : option error) (w' : World)
  (Hrun : WaitUntil f ctx ties fuel (start t0) = Some (res, w')) :
  spaced (50 * Millisecond) f (invoked w') /\
  Forall (fun t => t0 + 50 * Millisecond <= t) (invoked w') /\
  match invoked w' with
  | t :: rest => t + Z.max 0 (cost f (length rest)) <= now w'
  | [] => t0 <= now w'
  end.
Proof.
  destruct (WaitUntil_settled f ctx ties t0 fuel _ _ _
              (settled_start _ f t0) Hrun) as (Hs & Hf & Ht & Hn).
  split; [exact Hs|]. split; [exact Hf|].
  destruct (invoked w'); assumption.
Qed.

Lemma WaitUntil_invocations_never_overlap_witness :
  spaced (50 * Millisecond)
    {| result := fun k => if (k <? 2)%nat then Some ErrContinueWait else None;
       cost := fun _ => 7 |}
    [150000014; 100000007; 50000000].
Proof.
  apply (WaitUntil_invocations_never_overlap
           {| result := fun k => if (k <? 2)%nat then Some ErrContinueWait
                                 else None;
              cost := fun _ => 7 |}
           {| cancelAt := None; cause := Canceled |}
           (fun _ => caseDone) 0 3 None
           {| now := 150000021; invoked := [150000014; 100000007; 50000000];
              selects := 3 |}).
  reflexivity.
Defined.

(** X5: however [IntervalRun] ends (a failure of the action or the end of
    the scope), for every interval, action, scope and schedule, its
    invocations of the action never overlap: the first begins no earlier
    than one interval after the start, each later one no earlier than one
    interval after the previous one returned (a non-positive interval
    counting as zero), and the loop returns after the last one has
    returned. *)
Theorem IntervalRun_invocations_never_overlap
  (interval : Duration) (a : Callee) (ctx : Scope) (ties : nat -> selected)
  (t0 : Z) (fuel : nat) (res : option error) (w' : World)
  (Hrun : IntervalRun interval a ctx ties fuel (start t0) = Some (res, w')) :
  spaced interval a (invoked w') /\
  Forall (fun t => t0 + Z.max 0 interval <= t) (invoked w') /\
  match invoked w' with
  | t :: rest => t + Z.max 0 (cost a (length rest)) <= now w'
  | [] => t0 <= now w'
  end.
Proof.
  destruct (IntervalRun_settled interval a ctx ties t0 fuel _ _ _
              (settled_start _ a t0) Hrun) as (Hs & Hf & Ht & Hn).
  split; [exact Hs|]. split; [exact Hf|].
  destruct (invoked w'); assumption.
Qed.

Lemma IntervalRun_invocations_never_overlap_witness :
  spaced 1000
    {| result := fun k => if (k <? 1)%nat then None
                          else Some (errorsNew "boom");
       cost := fun _ => 10 |}
    [2010; 1000].
Proof.
  apply (IntervalRun_invocations_never_overlap 1000
           {| result := fun k => if (k <? 1)%nat then None
                                 else Some (errorsNew "boom");
              cost := fun _ => 10 |}
           {| cancelAt := Some 5000; cause := Canceled |}
           (fun _ => caseDone) 0 2 (Some (errorsNew "boom"))
           {| now := 2020; invoked := [2010; 1000]; selects := 2 |}).
  reflexivity.
Defined.

(** ** WaitNotLocation and WaitLocationChanged *)

Lemma WaitNotLocation_loop_returns not_ ret loc ctx ties fuel :
  forall urlstr w h res w' h',
    WaitNotLocation_loop not_ ret loc ctx ties fuel urlstr w h =
    Some (res, w', h') ->
    (res = Some (ctxError (cause ctx)) /\ h' = h /\
     isDone ctx (now w') = true /\
     (length (invoked w) <= length (invoked w'))%nat) \/
    (res = None /\
     exists u, u <> not_ /\ h' = report ret u h /\
               (length (invoked w) < length (invoked w'))%nat).
Proof.
  induction fuel as [|fuel IH]; intros urlstr w h res w' h'; [discriminate|].
  cbn [WaitNotLocation_loop].
  destruct (selectDoneTimer ctx (NewTimer (50 * Millisecond) (now w))
              (ties (selects w)) (now w)) as [[] t] eqn:Es.
  - pose proof (select_done_Err _ _ _ _ _ Es) as He. rewrite He.
    intros [= <- <- <-]. left. repeat split; simpl; [|lia].
    unfold Err in He. destruct (isDone ctx t); [reflexivity|discriminate].
  - unfold evaluate. simpl.
    destruct (String.eqb_spec
                (leaves loc (length (invoked w)) urlstr) not_) as [Heq|Hne].
    + intros H. apply IH in H.
      destruct H as [(Hr & Hh & Hd & Hl)|(Hr & u & Hu & Hh & Hl)];
        [left; simpl in Hl; repeat split; auto; lia|].
      right. split; [exact Hr|]. exists u. repeat split; auto.
      simpl in Hl. lia.
    + intros [= <- <- <-]. right. split; [reflexivity|].
      eexists. repeat split; [exact Hne|]. simpl. lia.
Qed.

(** X6: however [WaitNotLocation] ends, for every target, out pointer,
    reader, scope and schedule: either it returns the error of its scope,
    which is done, and has written nothing; or it returns nil after at least
    one evaluation, and what it stores through a non-nil [ret] (and nowhere
    else) is a location different from [not].  It returns no other error:
    errors of the evaluation are dropped. *)
Theorem WaitNotLocation_result
  (not_ : string) (ret : pointer) (loc : Reader) (ctx : Scope)
  (ties : nat -> selected) (fuel : nat) (w : World) (h : strings)
  (res : option error) (w' : World) (h' : strings)
  (Hrun : WaitNotLocation not_ ret loc ctx ties fuel w h = Some (res, w', h')) :
  (res = Some (ctxError (cause ctx)) /\ h' = h /\
   isDone ctx (now w') = true /\
   (length (invoked w) <= length (invoked w'))%nat) \/
  (res = None /\
   exists u, u <> not_ /\ h' = report ret u h /\
             (length (invoked w) < length (invoked w'))%nat).
Proof.
  exact (WaitNotLocation_loop_returns _ _ _ _ _ _ _ _ _ _ _ _ Hrun).
Qed.

Lemma WaitNotLocation_result_witness :
  (@None error = Some (ctxError Canceled) /\
   storeString (fun _ => "old"%string) 4 "b"%string = (fun _ => "old"%string) /\
   isDone {| cancelAt := None; cause := Canceled |} 100000002 = true /\
   (0 <= 2)%nat) \/
  (@None error = None /\
   exists u, u <> "a"%string /\
             storeString (fun _ => "old"%string) 4 "b"%string =
             report (Some 4%nat) u (fun _ => "old"%string) /\
             (0 < 2)%nat).
Proof.
  apply (WaitNotLocation_result "a"%string (Some 4%nat)
           {| leaves := fun k _ => if (k <? 1)%nat then "a"%string else "b"%string;
              took := fun _ => 1 |}
           {| cancelAt := None; cause := Canceled |}
           (fun _ => caseDone) 2 (start 0) (fun _ => "old"%string)
           None
           {| now := 100000002; invoked := [100000001; 50000000];
              selects := 2 |}).
  reflexivity.
Defined.

Lemma WaitNotLocation_loop_more_fuel not_ ret loc ctx ties fuel :
  forall urlstr w h res,
    WaitNotLocation_loop not_ ret loc ctx ties fuel urlstr w h = Some res ->
    forall fuel', (fuel <= fuel')%nat ->
      WaitNotLocation_loop not_ ret loc ctx ties fuel' urlstr w h = Some res.
Proof.
  induction fuel as [|fuel IH]; intros urlstr w h res H fuel' Hle;
    [discriminate|].
  destruct fuel' as [|fuel']; [lia|].
  cbn [WaitNotLocation_loop] in *.
  destruct (selectDoneTimer ctx (NewTimer (50 * Millisecond) (now w))
              (ties (selects w)) (now w)) as [[] t]; [assumption|].
  destruct (evaluate loc t urlstr (afterSelect w)) as [u w1].
  destruct (String.eqb u not_); [|assumption].
  apply IH; [assumption|lia].
Qed.

Lemma WaitNotLocation_loop_changes not_ ret loc ctx ties (C : nat)
  (u : string) :
  u <> not_ ->
  forall urlstr w h,
    (forall j, (j < C)%nat ->
               heldAfter loc (length (invoked w)) urlstr j = not_) ->
    heldAfter loc (length (invoked w)) urlstr C = u ->
    isDone ctx (invocationAt (50 * Millisecond) (timing loc)
                  (length (invoked w)) (now w) C) = false ->
    exists w',
      WaitNotLocation_loop not_ ret loc ctx ties (S C) urlstr w h =
      Some (None, w', report ret u h) /\
      length (invoked w') = (length (invoked w) + S C)%nat.
Proof.
  intros Hu. induction C as [|C IH]; intros urlstr w h Hsame Hch Hlive.
  - simpl in Hlive, Hch. cbn [WaitNotLocation_loop].
    rewrite select_timer by (auto using NewTimer_ge).
    unfold evaluate. simpl. rewrite Hch.
    destruct (String.eqb_spec u not_); [contradiction|].
    eexists. split; [reflexivity|]. simpl. lia.
  - cbn [WaitNotLocation_loop].
    assert (Hl1 : isDone ctx (NewTimer (50 * Millisecond) (now w)) = false).
    { eapply isDone_earlier; [exact Hlive|apply invocationAt_ge]. }
    rewrite select_timer by (auto using NewTimer_ge).
    unfold evaluate. simpl.
    pose proof (Hsame O ltac:(lia)) as H0. simpl in H0. rewrite H0.
    rewrite String.eqb_refl.
    set (w1 := {| now := NewTimer (50 * Millisecond) (now w) +
                         Z.max 0 (took loc (length (invoked w)));
                  invoked := NewTimer (50 * Millisecond) (now w) :: invoked w;
                  selects := S (selects w) |}).
    destruct (IH not_ w1 h) as (w' & Hrun & Hlen).
    + intros j Hj. specialize (Hsame (S j) ltac:(lia)).
      simpl in Hsame. rewrite H0 in Hsame. exact Hsame.
    + simpl in Hch. rewrite H0 in Hch. exact Hch.
    + exact Hlive.
    + exists w'. split; [exact Hrun|]. rewrite Hlen. simpl. lia.
Qed.

(** X7: [WaitNotLocation] returns at the first evaluation that leaves a
    location different from [not]: when the first [C] evaluations leave
    [not] and the next one leaves [u], under a scope that is live until that
    tick, it returns nil after exactly [C+1] evaluations, each after a fresh
    50ms timer, with [u] stored through a non-nil [ret] and memory otherwise
    as it was. *)
Theorem WaitNotLocation_first_change
  (not_ : string) (ret : pointer) (loc : Reader) (ctx : Scope)
  (ties : nat -> selected) (t0 : Z) (h : strings) (C : nat) (u : string)
  (Hsame : forall j, (j < C)%nat -> heldAfter loc 0 ""%string j = not_)
  (Hchange : heldAfter loc 0 ""%string C = u)
  (Hu : u <> not_)
  (Hlive : isDone ctx (invocationAt (50 * Millisecond) (timing loc) 0 t0 C)
           = false) :
  exists w',
    (forall fuel, (C < fuel)%nat ->
       WaitNotLocation not_ ret loc ctx ties fuel (start t0) h =
       Some (None, w', report ret u h)) /\
    length (invoked w') = S C /\
    (forall p, ret <> Some p -> report ret u h p = h p) /\
    (forall p, ret = Some p -> report ret u h p = u).
Proof.
  destruct (WaitNotLocation_loop_changes not_ ret loc ctx ties C u Hu
              ""%string (start t0) h) as (w' & Hrun & Hlen); auto.
  exists w'. split; [|split; [exact Hlen|split]].
  - intros fuel Hf. unfold WaitNotLocation.
    apply (WaitNotLocation_loop_more_fuel _ _ _ _ _ (S C)); [exact Hrun|lia].
  - intros p Hp. unfold report, storeString. destruct ret as [q|]; auto.
    destruct (Nat.eqb_spec p q); [congruence|reflexivity].
  - intros p ->. unfold report, storeString. rewrite Nat.eqb_refl.
    reflexivity.
Qed.

Lemma WaitNotLocation_first_change_witness :
  exists w',
    (forall fuel, (1 < fuel)%nat ->
       WaitNotLocation "a"%string (Some 4%nat)
         {| leaves := fun k _ => if (k <? 1)%nat then "a"%string else "b"%string;
            took := fun _ => 1 |}
         {| cancelAt := None; cause := Canceled |}
         (fun _ => caseDone) fuel (start 0) (fun _ => "old"%string) =
       Some (None, w', report (Some 4%nat) "b"%string (fun _ => "old"%string))) /\
    length (invoked w') = 2%nat.
Proof.
  destruct (WaitNotLocation_first_change "a"%string (Some 4%nat)
              {| leaves := fun k _ => if (k <? 1)%nat then "a"%string else "b"%string;
                 took := fun _ => 1 |}
              {| cancelAt := None; cause := Canceled |}
              (fun _ => caseDone) 0 (fun _ => "old"%string) 1 "b"%string)
    as (w' & H1 & H2 & _).
  - intros [|j] Hj; [reflexivity|lia].
  - reflexivity.
  - discriminate.
  - reflexivity.
  - exists w'. split; assumption.
Defined.

(** X8: the error of the evaluation is dropped, so an evaluation that
    leaves the variable as it was (as a failed one does) counts as a reading
    of the empty location: for a non-empty [not], under a scope that is live
    at the first tick, [WaitNotLocation] then returns nil after one
    evaluation and reports the empty string. *)
Theorem WaitNotLocation_reports_empty_on_failed_read
  (not_ : string) (ret : pointer) (loc : Reader) (ctx : Scope)
  (ties : nat -> selected) (t0 : Z) (h : strings)
  (Hnot : not_ <> ""%string)
  (Hfail : leaves loc 0 ""%string = ""%string)
  (Hlive : isDone ctx (t0 + 50 * Millisecond) = false) :
  exists w',
    (forall fuel, (0 < fuel)%nat ->
       WaitNotLocation not_ ret loc ctx ties fuel (start t0) h =
       Some (None, w', report ret ""%string h)) /\
    length (invoked w') = 1%nat.
Proof.
  destruct (WaitNotLocation_loop_changes not_ ret loc ctx ties 0 ""%string
              ltac:(congruence) ""%string (start t0) h)
    as (w' & Hrun & Hlen); auto.
  - intros j Hj. lia.
  - exists w'. split; [|exact Hlen].
    intros fuel Hf. unfold WaitNotLocation.
    apply (WaitNotLocation_loop_more_fuel _ _ _ _ _ 1); [exact Hrun|lia].
Qed.

Lemma WaitNotLocation_reports_empty_on_failed_read_witness :
  exists w',
    (forall fuel, (0 < fuel)%nat ->
       WaitNotLocation "https://a.example/"%string (Some 0%nat)
         {| leaves := fun _ u => u; took := fun _ => 1 |}
         {| cancelAt := None; cause := Canceled |}
         (fun _ => caseDone) fuel (start 0) (fun _ => "old"%string) =
       Some (None, w', report (Some 0%nat) ""%string (fun _ => "old"%string))) /\
    length (invoked w') = 1%nat.
Proof.
  apply (WaitNotLocation_reports_empty_on_failed_read
           "https://a.example/"%string (Some 0%nat)
           {| leaves := fun _ u => u; took := fun _ => 1 |}
           {| cancelAt := None; cause := Canceled |}
           (fun _ => caseDone) 0 (fun _ => "old"%string)).
  - discriminate.
  - reflexivity.
  - reflexivity.
Defined.

Lemma WaitNotLocation_loop_cancel_ends not_ ret loc ctx ties (c : Z) :
  cancelAt ctx = Some c ->
  forall (n : nat) (urlstr : string) (w : World) (h : strings),
    c - now w <= Z.of_nat n ->
    Forall (fun t => t <= c) (invoked w) ->
    exists fuel res w' h',
      WaitNotLocation_loop not_ ret loc ctx ties fuel urlstr w h =
      Some (res, w', h') /\
      Forall (fun t => t <= c) (invoked w').
Proof.
  intros Hc.
  assert (Hms : 0 < 50 * Millisecond) by (unfold Millisecond; lia).
  assert (Hdone : forall urlstr w h,
            c < NewTimer (50 * Millisecond) (now w) ->
            Forall (fun t => t <= c) (invoked w) ->
            exists fuel res w' h',
              WaitNotLocation_loop not_ ret loc ctx ties fuel urlstr w h =
              Some (res, w', h') /\
              Forall (fun t => t <= c) (invoked w')).
  { intros urlstr w h Hlt Hall. exists 1%nat. do 3 eexists.
    cbn [WaitNotLocation_loop].
    rewrite (select_done ctx c) by (auto; unfold NewTimer; lia).
    split; [reflexivity|exact Hall]. }
  induction n as [|n IH]; intros urlstr w h Hn Hall.
  - apply Hdone; [unfold NewTimer; lia|assumption].
  - destruct (Z_lt_le_dec c (NewTimer (50 * Millisecond) (now w)))
      as [Hlt|Hge]; [apply Hdone; assumption|].
    set (tm := NewTimer (50 * Millisecond) (now w)) in *.
    set (u := leaves loc (length (invoked w)) urlstr).
    set (w1 := {| now := tm + Z.max 0 (took loc (length (invoked w)));
                  invoked := tm :: invoked w;
                  selects := S (selects w) |}).
    assert (Hall1 : Forall (fun t => t <= c) (invoked w1))
      by (simpl; constructor; [lia|assumption]).
    destruct (IH u w1 h) as (fuel & res & w' & h' & Hrun & Hall');
      [simpl; unfold tm, NewTimer in *; lia|exact Hall1|].
    assert (Htick : exists fuel res w' h',
               (let (urlstr', w2) := evaluate loc tm urlstr (afterSelect w) in
                if String.eqb urlstr' not_
                then WaitNotLocation_loop not_ ret loc ctx ties fuel
                       urlstr' w2 h
                else Some (None, w2, report ret urlstr' h)) =
               Some (res, w', h') /\
               Forall (fun t => t <= c) (invoked w')).
    { unfold evaluate. simpl. fold u. fold w1.
      destruct (String.eqb u not_).
      - exists fuel, res, w', h'. split; assumption.
      - exists O. do 3 eexists. split; [reflexivity|exact Hall1]. }
    destruct Htick as (fuel2 & res2 & w2 & h2 & Hrun2 & Hall2).
    destruct (Z.eq_dec c tm) as [->|Hne].
    + destruct (ties (selects w)) eqn:Et.
      * exists 1%nat. do 3 eexists. cbn [WaitNotLocation_loop]. fold tm.
        rewrite select_tie by (auto; unfold tm; apply NewTimer_ge).
        rewrite Et. split; [reflexivity|exact Hall].
      * exists (S fuel2), res2, w2, h2. cbn [WaitNotLocation_loop]. fold tm.
        rewrite select_tie by (auto; unfold tm; apply NewTimer_ge).
        rewrite Et. split; assumption.
    + exists (S fuel2), res2, w2, h2. cbn [WaitNotLocation_loop]. fold tm.
      rewrite select_timer;
        [|unfold isDone; rewrite Hc; apply Z.leb_gt; lia
         |unfold tm; apply NewTimer_ge].
      split; assumption.
Qed.

(** X9: under a scope that ends, [WaitNotLocation] returns, whatever the
    location does and whatever the runtime chooses at a tie (it returns nil
    or the scope's error, and no evaluation begins after the instant the
    scope ends); a location that never leaves [not] cannot keep it
    running. *)
Theorem WaitNotLocation_ends_with_scope
  (not_ : string) (ret : pointer) (loc : Reader) (ctx : Scope)
  (ties : nat -> selected) (t0 c : Z) (h : strings)
  (Hc : cancelAt ctx = Some c) :
  exists fuel res w' h',
    WaitNotLocation not_ ret loc ctx ties fuel (start t0) h =
    Some (res, w', h') /\
    (res = None \/ res = Some (ctxError (cause ctx))) /\
    Forall (fun t => t <= c) (invoked w').
Proof.
  destruct (WaitNotLocation_loop_cancel_ends not_ ret loc ctx ties c Hc
              (Z.to_nat (c - t0)) ""%string (start t0) h)
    as (fuel & res & w' & h' & Hrun & Hall).
  - simpl. lia.
  - constructor.
  - exists fuel, res, w', h'. split; [exact Hrun|]. split; [|exact Hall].
    destruct (WaitNotLocation_loop_returns _ _ _ _ _ _ _ _ _ _ _ _ Hrun)
      as [(-> & _)|(-> & _)]; auto.
Qed.

Lemma WaitNotLocation_ends_with_scope_witness :
  exists fuel res w' h',
    WaitNotLocation "a"%string None
      {| leaves := fun _ _ => "a"%string; took := fun _ => 5 |}
      {| cancelAt := Some 130000000; cause := DeadlineExceeded |}
      (fun _ => caseTimer) fuel (start 0) (fun _ => ""%string) =
    Some (res, w', h') /\
    (res = None \/ res = Some (ctxError DeadlineExceeded)) /\
    Forall (fun t => t <= 130000000) (invoked w').
Proof.
  apply (WaitNotLocation_ends_with_scope "a"%string None
           {| leaves := fun _ _ => "a"%string; took := fun _ => 5 |}
           {| cancelAt := Some 130000000; cause := DeadlineExceeded |}
           (fun _ => caseTimer) 0 130000000 (fun _ => ""%string)).
  reflexivity.
Defined.

(** X10: [WaitLocationChanged] reads the location once before it looks at
    its scope, so it has always evaluated at least once when it returns; it
    returns the error of its scope, which is done, with nothing written, or
    nil after a further evaluation, and then what it stores through a
    non-nil [ret] is a location different from the one the first evaluation
    left. *)
Theorem WaitLocationChanged_result
  (ret : pointer) (loc : Reader) (ctx : Scope) (ties : nat -> selected)
  (fuel : nat) (w : World) (h : strings)
  (res : option error) (w' : World) (h' : strings)
  (Hrun : WaitLocationChanged ret loc ctx ties fuel w h = Some (res, w', h')) :
  (length (invoked w) < length (invoked w'))%nat /\
  ((res = Some (ctxError (cause ctx)) /\ h' = h /\
    isDone ctx (now w') = true) \/
   (res = None /\
    exists u, u <> leaves loc (length (invoked w)) ""%string /\
              h' = report ret u h /\
              (S (length (invoked w)) < length (invoked w'))%nat)).
Proof.
  unfold WaitLocationChanged, evaluate, WaitNotLocation in Hrun.
  apply WaitNotLocation_loop_returns in Hrun. simpl in Hrun.
  destruct Hrun as [(-> & -> & Hd & Hl)|(-> & u & Hu & Hh & Hl)].
  - split; [lia|left; auto].
  - split; [lia|]. right. split; [reflexivity|]. exists u. auto.
Qed.

Lemma WaitLocationChanged_result_witness :
  (0 < 2)%nat /\
  ((@None error = Some (ctxError Canceled) /\
    storeString (fun _ => "old"%string) 4 "b"%string =
    (fun _ => "old"%string) /\
    isDone {| cancelAt := None; cause := Canceled |} 50000004 = true) \/
   (@None error = None /\
    exists u, u <> "a"%string /\
              storeString (fun _ => "old"%string) 4 "b"%string =
              report (Some 4%nat) u (fun _ => "old"%string) /\
              (1 < 2)%nat)).
Proof.
  apply (WaitLocationChanged_result (Some 4%nat)
           {| leaves := fun k _ => if (k <? 1)%nat then "a"%string
                                   else "b"%string;
              took := fun _ => 2 |}
           {| cancelAt := None; cause := Canceled |}
           (fun _ => caseDone) 1 (start 0) (fun _ => "old"%string)
           None
           {| now := 50000004; invoked := [50000002; 0]; selects := 1 |}).
  reflexivity.
Defined.

(** X11: entered under a scope that is already done, [WaitLocationChanged]
    still evaluates the location once, then returns the error of the scope
    at its first select, having written nothing. *)
Theorem WaitLocationChanged_evaluates_once_under_done_scope
  (ret : pointer) (loc : Reader) (ctx : Scope) (ties : nat -> selected)
  (fuel : nat) (w : World) (h : strings)
  (Hdone : isDone ctx (now w) = true) :
  exists w',
    WaitLocationChanged ret loc ctx ties (S fuel) w h =
    Some (Some (ctxError (cause ctx)), w', h) /\
    invoked w' = now w :: invoked w.
Proof.
  unfold isDone in Hdone.
  destruct (cancelAt ctx) as [c|] eqn:Hc; [|discriminate].
  apply Z.leb_le in Hdone.
  unfold WaitLocationChanged, evaluate, WaitNotLocation.
  cbn [WaitNotLocation_loop]. simpl now.
  rewrite (select_done ctx c)
    by (auto; unfold NewTimer, Millisecond; lia).
  rewrite (Err_after ctx c) by (auto; lia).
  eexists. split; reflexivity.
Qed.

Lemma WaitLocationChanged_evaluates_once_under_done_scope_witness :
  exists w',
    WaitLocationChanged None
      {| leaves := fun _ _ => "a"%string; took := fun _ => 5 |}
      {| cancelAt := Some 0; cause := Canceled |}
      (fun _ => caseTimer) 1 (start 3) (fun _ => ""%string) =
    Some (Some (ctxError Canceled), w', fun _ => ""%string) /\
    invoked w' = [3].
Proof.
  apply (WaitLocationChanged_evaluates_once_under_done_scope None
           {| leaves := fun _ _ => "a"%string; took := fun _ => 5 |}
           {| cancelAt := Some 0; cause := Canceled |}
           (fun _ => caseTimer) 0 (start 3) (fun _ => ""%string)).
  reflexivity.
Defined.

(** ** Cookies *)

Lemma CookieParamsFromCookies_loop_all {F : Type} (toInt64 : F -> Z)
  (cs : list (Cookie.t F)) :
  forall ret,
    CookieParamsFromCookies_loop toInt64 (map Some cs) ret =
    Built (ret ++ map (cookieParam toInt64) cs).
Proof.
  induction cs as [|c cs IH]; intros ret; simpl.
  - rewrite app_nil_r. reflexivity.
  - rewrite IH, <- app_assoc. reflexivity.
Qed.

Lemma CookieParamsFromCookies_loop_nil {F : Type} (toInt64 : F -> Z)
  (cookies : list (option (Cookie.t F))) :
  In None cookies ->
  forall ret,
    CookieParamsFromCookies_loop toInt64 cookies ret =
    Panic "nil pointer dereference".
Proof.
  induction cookies as [|[c|] cookies IH]; simpl; intros H ret.
  - contradiction.
  - destruct H as [H|H]; [discriminate|]. apply IH, H.
  - reflexivity.
Qed.

(** X12: on cookies none of which is nil, [CookieParamsFromCookies] returns
    one param per cookie, in the order of the cookies, each with the name,
    value, domain, path, flags and same-site setting of its cookie, an empty
    URL and a non-nil expiry holding the cookie's expiry converted to whole
    seconds (an empty list gives an empty list); and [SetCookies] sends
    exactly these params and returns the error of the request.  A nil
    cookie anywhere in the list makes both panic, and nothing is sent. *)
Theorem CookieParamsFromCookies_one_param_per_cookie
  (F : Type) (toInt64 : F -> Z) (send : list CookieParam.t -> option error)
  (cs : list (Cookie.t F)) :
  exists params,
    CookieParamsFromCookies toInt64 (map Some cs) = Built params /\
    SetCookies toInt64 send (map Some cs) = Built (send params) /\
    length params = length cs /\
    (forall (i : nat) (c : Cookie.t F),
        cs !! i = Some c ->
        exists p,
          params !! i = Some p /\
          CookieParam.Name p = Cookie.Name c /\
          CookieParam.Value p = Cookie.Value c /\
          CookieParam.URL p = ""%string /\
          CookieParam.Domain p = Cookie.Domain c /\
          CookieParam.Path p = Cookie.Path c /\
          CookieParam.Secure p = Cookie.Secure c /\
          CookieParam.HTTPOnly p = Cookie.HTTPOnly c /\
          CookieParam.SameSite p = Cookie.SameSite c /\
          CookieParam.Expires p = Some (toInt64 (Cookie.Expires c))) /\
    (forall cookies : list (option (Cookie.t F)),
        In None cookies ->
        CookieParamsFromCookies toInt64 cookies =
        Panic "nil pointer dereference" /\
        SetCookies toInt64 send cookies = Panic "nil pointer dereference").
Proof.
  exists (map (cookieParam toInt64) cs).
  assert (H : CookieParamsFromCookies toInt64 (map Some cs) =
              Built (map (cookieParam toInt64) cs)).
  { unfold CookieParamsFromCookies.
    rewrite CookieParamsFromCookies_loop_all. reflexivity. }
  split; [exact H|]. split; [unfold SetCookies; rewrite H; reflexivity|].
  split; [apply length_map|]. split.
  - intros i c Hc. exists (cookieParam toInt64 c). split.
    + rewrite list_lookup_fmap_Some_2 with (x := c); auto.
    + repeat split.
  - intros cookies Hn.
    assert (Hp : CookieParamsFromCookies toInt64 cookies =
                 Panic "nil pointer dereference")
      by (apply CookieParamsFromCookies_loop_nil, Hn).
    split; [exact Hp|]. unfold SetCookies. rewrite Hp. reflexivity.
Qed.

(** ** Undetectable *)

Lemma last_cons_default (l : list bool) (x d d' : bool) :
  List.last (x :: l) d = List.last (x :: l) d'.
Proof.
  revert x. induction l as [|y l IH]; intros x; [reflexivity|].
  change (List.last (y :: l) d = List.last (y :: l) d'). apply IH.
Qed.

Lemma undetectable_options_last (bs : list bool) (o : undetectableOptions) :
  bypassIframeTest
    (fold_left (fun options opt => opt options) (map BypassIframeTest bs) o) =
  List.last bs (bypassIframeTest o).
Proof.
  revert o. induction bs as [|b bs IH]; intros o; [reflexivity|].
  simpl fold_left. rewrite IH. simpl bypassIframeTest.
  destruct bs as [|b0 bs]; [reflexivity|].
  change (List.last (b :: b0 :: bs) (bypassIframeTest o))
    with (List.last (b0 :: bs) (bypassIframeTest o)).
  apply last_cons_default.
Qed.

(** X13: the script [Undetectable] sends is the base text, followed by the
    iframe patch exactly when the last [BypassIframeTest] option given says
    so, and by default when none is given; earlier options have no
    effect. *)
Theorem Undetectable_last_option_decides
  (script : string) (bs : list bool) :
  Undetectable script (map BypassIframeTest bs) =
  (if List.last bs true then (script ++ iframePatch)%string else script) /\
  Undetectable script [] = (script ++ iframePatch)%string /\
  (forall (earlier : list bool) (b : bool),
      Undetectable script (map BypassIframeTest (earlier ++ [b])) =
      Undetectable script [BypassIframeTest b]).
Proof.
  assert (H : forall l, Undetectable script (map BypassIframeTest l) =
                        if List.last l true then (script ++ iframePatch)%string
                        else script).
  { intros l. unfold Undetectable. rewrite undetectable_options_last.
    reflexivity. }
  split; [apply H|]. split; [reflexivity|].
  intros earlier b. rewrite H, List.last_last.
  destruct b; reflexivity.
Qed.

(** ** Navigation actions, end to end *)



(** On a schedule that reaches the return every goroutine has been launched
    and has terminated. *)
Lemma WaitOneOf_executors_all_exited fn ctx h0 tr s r :
  run fn tr (enter ctx h0) = Some s -> coord s = Returned r ->
  length (executors s) = length (actions fn) /\
  Forall (fun x => x = Exited) (executors s).
Proof.
  intros Hrun Hret.
  pose proof (raceInv_run _ _ _ _ _ Hrun) as [Hwg Hla _ _ Hj _].
  rewrite Hret in Hla, Hj. split; [exact Hla|].
  apply pending_zero. congruence.
Qed.

(** ** WaitOneOf: returning takes every action *)

(** A goroutine that is past [action.Do] got there by a step on which its
    action returned. *)
Lemma past_action_run fn ctx h0 tr s :
  run fn tr (enter ctx h0) = Some s ->
  forall k x,
    executors s !! k = Some x -> x <> Running ->
    In (ActionReturns k) tr /\
    exists a c err, actions fn !! k = Some a /\ a c = Some err.
Proof.
  revert s. induction tr as [|l tr IH] using rev_ind; intros s.
  - intros [= <-] k x H. discriminate.
  - rewrite run_snoc.
    destruct (run fn tr (enter ctx h0)) as [s0|] eqn:Hr; [|discriminate].
    specialize (IH s0 eq_refl).
    assert (IH' : forall k x,
               executors s0 !! k = Some x -> x <> Running ->
               In (ActionReturns k) (tr ++ [l]) /\
               exists a c err, actions fn !! k = Some a /\ a c = Some err).
    { intros k x Hk Hx. destruct (IH k x Hk Hx) as [Hin Ha].
      split; [apply in_or_app; auto|exact Ha]. }
    assert (Hmove : forall j y,
               (exists x0, executors s0 !! j = Some x0 /\ x0 <> Running) ->
               forall k x,
                 <[j := y]> (executors s0) !! k = Some x -> x <> Running ->
                 In (ActionReturns k) (tr ++ [l]) /\
                 exists a c err, actions fn !! k = Some a /\ a c = Some err).
    { intros j y (x0 & Hj & Hx0) k x Hk Hx.
      apply lookup_insert_cases in Hk. destruct Hk as [[-> _]|[_ Hk]].
      - apply (IH' j x0); assumption.
      - apply (IH' k x); assumption. }
    intros Hstep.
    destruct l as [ | |j|j err|j|j| |e| | ]; simpl in Hstep.
    + destruct (coord s0); try discriminate.
      destruct (_ <? _)%nat; [|discriminate]. injection Hstep as <-. simpl.
      intros k x Hk Hx. apply (IH' k x); [|exact Hx].
      apply lookup_snoc_old in Hk; auto.
    + destruct (coord s0); try discriminate.
      destruct (_ <? _)%nat; [discriminate|]. injection Hstep as <-.
      exact IH'.
    + destruct (executors s0 !! j) as [[]|] eqn:Ej; try discriminate.
      destruct (actions fn !! j) as [action|] eqn:Ea; [|discriminate].
      destruct (action (derived s0)) as [err|] eqn:Er; [|discriminate].
      injection Hstep as <-. simpl. intros k x Hk Hx.
      apply lookup_insert_cases in Hk. destruct Hk as [[-> _]|[_ Hk]].
      * split; [apply in_or_app; simpl; auto|]. eauto.
      * apply (IH' k x); assumption.
    + destruct (coord s0); try discriminate.
      destruct (executors s0 !! j) as [[|err'| |]|] eqn:Ej; try discriminate.
      destruct (error_eqb err err'); [|discriminate].
      destruct (received (waitIdx fn) j err' (mem s0)) as [r h].
      injection Hstep as <-. simpl. apply Hmove.
      eexists. split; [exact Ej|discriminate].
    + destruct (executors s0 !! j) as [[|err'| |]|] eqn:Ej; try discriminate.
      destruct (derived s0); [|discriminate].
      injection Hstep as <-. simpl. apply Hmove.
      eexists. split; [exact Ej|discriminate].
    + destruct (executors s0 !! j) as [[]|] eqn:Ej; try discriminate.
      injection Hstep as <-. simpl. apply Hmove.
      eexists. split; [exact Ej|discriminate].
    + destruct (coord s0); try discriminate.
      destruct (derived s0); [|discriminate]. injection Hstep as <-.
      exact IH'.
    + destruct (parent s0); [discriminate|]. injection Hstep as <-.
      exact IH'.
    + destruct (coord s0); try discriminate. injection Hstep as <-.
      exact IH'.
    + destruct (coord s0); try discriminate.
      destruct (Nat.eqb (wg s0) 0); [|discriminate]. injection Hstep as <-.
      exact IH'.
Qed.

(** X15: the action built by [WaitOneOf] returns only after every one of
    its actions has returned, not just the first: on every schedule that
    reaches the return, each action was launched and returned on some step;
    so an action that never returns, whatever the state of its context,
    keeps the whole race from returning. *)
Theorem WaitOneOf_returns_after_every_action
  (fn : raceFunc) (ctx : option ctxErr) (h0 : heap) (tr : list label)
  (s : race) (r : option error) (k : nat) (a : Racer)
  (Hrun : run fn tr (enter ctx h0) = Some s)
  (Hret : coord s = Returned r)
  (Hk : actions fn !! k = Some a) :
  In (ActionReturns k) tr /\ exists c err, a c = Some err.
Proof.
  pose proof (raceInv_run _ _ _ _ _ Hrun) as [_ Hla _ _ _ _].
  rewrite Hret in Hla.
  destruct (lookup_lt_is_Some_2 (executors s) k) as [x Hx].
  { rewrite Hla. apply lookup_lt_Some in Hk. exact Hk. }
  destruct (WaitOneOf_executors_all_exited fn ctx h0 tr s r Hrun Hret)
    as [_ Hall].
  assert (x = Exited).
  { rewrite Forall_lookup in Hall. apply (Hall k x Hx). }
  subst x.
  destruct (past_action_run fn ctx h0 tr s Hrun k Exited Hx) as [Hin Ha];
    [discriminate|].
  split; [exact Hin|].
  destruct Ha as (a' & c & err & Ha' & Hc).
  assert (Heq : Some a' = Some a)
    by (transitivity (actions fn !! k); [symmetry; exact Ha'|exact Hk]).
  injection Heq as ->. eauto.
Qed.

Lemma WaitOneOf_returns_after_every_action_witness :
  In (ActionReturns 0)
    [Spawn; Spawn; LoopExit; ActionReturns 1; Deliver 1 None; DeferCancel;
     ActionReturns 0; Abandon 0; WgDone 0; WgDone 1; DeferWait] /\
  exists c err,
    (fun c0 : option ctxErr => option_map Some (option_map ctxError c0)) c =
    Some err.
Proof.
  apply (WaitOneOf_returns_after_every_action
           {| waitIdx := Some 0%nat;
              actions := [fun c => option_map Some (option_map ctxError c);
                          fun _ => Some None] |}
           None (fun _ => 0)
           [Spawn; Spawn; LoopExit; ActionReturns 1; Deliver 1 None;
            DeferCancel; ActionReturns 0; Abandon 0; WgDone 0; WgDone 1;
            DeferWait]
           _ None 0%nat _ eq_refl eq_refl eq_refl).
Defined.

(** ** WaitOneOf: a race can always return *)

(** Under a done context a goroutine whose action returns once its context
    is done can be run to its end, by steps of its own. *)
Lemma exit_one fn (s : race) (k : nat) (a : Racer) :
  derived s <> None ->
  (k < length (executors s))%nat ->
  actions fn !! k = Some a ->
  (forall ce, a (Some ce) <> None) ->
  exists tr' s',
    run fn tr' s = Some s' /\
    coord s' = coord s /\ derived s' = derived s /\
    executors s' = <[k := Exited]> (executors s).
Proof.
  intros Hd Hlt Ha Hwell.
  destruct (derived s) as [ce|] eqn:Ed; [clear Hd|contradiction].
  assert (Hleave : forall s1,
             executors s1 !! k = Some Leaving ->
             exists s', run fn [WgDone k] s1 = Some s' /\
                        coord s' = coord s1 /\ derived s' = derived s1 /\
                        executors s' = <[k := Exited]> (executors s1)).
  { intros s1 Hk. simpl. rewrite Hk. eexists. split; [reflexivity|].
    simpl. auto. }
  assert (Hsend : forall s1 e,
             executors s1 !! k = Some (Sending e) -> derived s1 = Some ce ->
             exists s', run fn [Abandon k; WgDone k] s1 = Some s' /\
                        coord s' = coord s1 /\ derived s' = derived s1 /\
                        executors s' = <[k := Exited]> (executors s1)).
  { intros s1 e Hk Hd1. pose proof (lookup_lt_Some _ _ _ Hk) as Hl1.
    destruct (Hleave (setExecutor k Leaving s1)) as (s' & Hr & Hc & Hdd & He).
    { simpl. apply list_lookup_insert_eq, Hl1. }
    exists s'. split.
    - change (match step fn (Abandon k) s1 with
              | Some s2 => run fn [WgDone k] s2
              | None => None
              end = Some s').
      simpl step. rewrite Hk, Hd1. exact Hr.
    - simpl in Hc, Hdd, He. rewrite list_insert_insert_eq in He. auto. }
  destruct (lookup_lt_is_Some_2 _ _ Hlt) as [x Hx].
  destruct x as [|e| |].
  - destruct (a (Some ce)) as [err|] eqn:Hret; [|exfalso; eapply Hwell; eauto].
    destruct (Hsend (setExecutor k (Sending err) s) err)
      as (s' & Hr & Hc & Hdd & He).
    { simpl. apply list_lookup_insert_eq, Hlt. }
    { exact Ed. }
    exists [ActionReturns k; Abandon k; WgDone k], s'. split.
    + change (match step fn (ActionReturns k) s with
              | Some s2 => run fn [Abandon k; WgDone k] s2
              | None => None
              end = Some s').
      assert (Ha' : @lookup nat (option ctxErr -> option (option error))
                      (list Racer) _ k (actions fn) = Some a) by exact Ha.
      unfold step. rewrite Hx, Ha', Ed, Hret. exact Hr.
    + simpl in Hc, Hdd, He. rewrite list_insert_insert_eq in He.
      rewrite Hdd, Ed. auto.
  - destruct (Hsend s e Hx Ed) as (s' & Hr & Hc & Hdd & He).
    exists [Abandon k; WgDone k], s'. rewrite <- Ed. auto.
  - destruct (Hleave s Hx) as (s' & Hr & Hc & Hdd & He).
    exists [WgDone k], s'. rewrite <- Ed. auto.
  - exists [], s. split; [reflexivity|]. rewrite Ed.
    repeat split. symmetry. apply list_insert_id, Hx.
Qed.

Lemma exit_all fn (m : nat) :
  (forall k a ce, actions fn !! k = Some a -> a (Some ce) <> None) ->
  forall s : race,
    derived s <> None ->
    length (executors s) = length (actions fn) ->
    (m <= length (executors s))%nat ->
    exists tr' s',
      run fn tr' s = Some s' /\
      coord s' = coord s /\
      length (executors s') = length (executors s) /\
      forall k, (k < m)%nat -> executors s' !! k = Some Exited.
Proof.
  intros Hwell. induction m as [|m IH]; intros s Hd Hlen Hm.
  - exists [], s. repeat split. intros k Hk. lia.
  - destruct (IH s Hd Hlen ltac:(lia)) as (tr1 & s1 & Hr1 & Hc1 & Hl1 & He1).
    destruct (lookup_lt_is_Some_2 (actions fn) m) as [a Ha]; [lia|].
    assert (Hd1 : derived s1 <> None).
    { (* the steps of [exit_one] keep the context, so does their sequence *)
      clear - Hr1 Hd. revert s Hr1 Hd.
      induction tr1 as [|l tr1 IHt]; intros s Hr Hd.
      - injection Hr as <-. exact Hd.
      - simpl in Hr. destruct (step fn l s) as [s2|] eqn:Hs; [|discriminate].
        apply (IHt s2); [exact Hr|].
        destruct l; simpl in Hs;
          repeat match type of Hs with
                 | context [match ?x with _ => _ end] => destruct x eqn:?
                 end;
          try discriminate; injection Hs as <-; simpl;
          try congruence; apply cancelWith_done. }
    destruct (exit_one fn s1 m a Hd1 ltac:(lia) Ha (fun ce => Hwell m a ce Ha))
      as (tr2 & s2 & Hr2 & Hc2 & _ & He2).
    exists (tr1 ++ tr2), s2. split; [rewrite run_app, Hr1; exact Hr2|].
    split; [congruence|]. split; [rewrite He2, length_insert; exact Hl1|].
    intros k Hk. rewrite He2.
    destruct (Nat.eq_dec k m) as [->|Hne].
    + apply list_lookup_insert_eq. lia.
    + rewrite list_lookup_insert_ne by congruence. apply He1. lia.
Qed.

(** From every state a race reaches, steps of the coordinator, and the end
    of the caller's scope if nothing else wakes the select, lead to the
    deferred [wg.Wait()] with the derived context done. *)
Lemma to_joining fn ctx h0 tr s :
  run fn tr (enter ctx h0) = Some s ->
  (forall r, coord s <> Returned r) ->
  exists tr' s' r,
    run fn tr' s = Some s' /\ coord s' = Joining r /\ derived s' <> None.
Proof.
  intros Hrun Hnot.
  assert (Hsel : forall tr0 s0,
             run fn tr0 (enter ctx h0) = Some s0 -> coord s0 = Selecting ->
             exists tr' s' r,
               run fn tr' s0 = Some s' /\ coord s' = Joining r /\
               derived s' <> None).
  { intros tr0 s0 Hr0 Hc0.
    pose proof (raceInv_run _ _ _ _ _ Hr0) as [_ _ Hsc _ _ _].
    rewrite Hc0 in Hsc.
    destruct (derived s0) as [e|] eqn:Ed.
    - exists [TakeDone; DeferCancel]. do 2 eexists.
      simpl. rewrite Hc0, Ed. simpl. split; [reflexivity|].
      simpl. split; [reflexivity|]. rewrite Ed. discriminate.
    - exists [CancelParent Canceled; TakeDone; DeferCancel]. do 2 eexists.
      simpl. rewrite <- Hsc. simpl. rewrite Hc0, Ed. simpl.
      split; [reflexivity|]. simpl. split; [reflexivity|discriminate]. }
  destruct (coord s) as [idx| |r|r|r] eqn:Ec.
  - pose proof (raceInv_run _ _ _ _ _ Hrun) as [_ Hla _ _ _ _].
    rewrite Ec in Hla. destruct Hla as [_ Hle].
    destruct (spawn_rest fn (length (actions fn) - idx) s idx)
      as (s1 & Hr1 & Hc1 & _); [exact Ec|lia|].
    destruct (Hsel (tr ++ replicate (length (actions fn) - idx) Spawn ++
                      [LoopExit]) s1) as (tr2 & s2 & r & Hr2 & Hc2 & Hd2).
    { rewrite run_app, Hrun. exact Hr1. }
    { exact Hc1. }
    exists ((replicate (length (actions fn) - idx) Spawn ++ [LoopExit]) ++ tr2),
      s2, r.
    split; [rewrite run_app, Hr1; exact Hr2|auto].
  - apply (Hsel tr s Hrun Ec).
  - exists [DeferCancel]. do 2 eexists. simpl. rewrite Ec.
    split; [reflexivity|]. simpl. split; [reflexivity|apply cancelWith_done].
  - exists [], s, r. split; [reflexivity|]. split; [exact Ec|].
    pose proof (raceInv_run _ _ _ _ _ Hrun) as [_ _ Hsc _ _ _].
    rewrite Ec in Hsc. exact Hsc.
  - exfalso. apply (Hnot r). reflexivity.
Qed.

(** X16: a race whose actions return once their context is done never
    deadlocks: from every state it reaches there is a continuation on which
    the action built by [WaitOneOf] returns (the coordinator takes its
    steps, the caller's scope ends if nothing else wakes the select, and
    every goroutine finishes its action, abandons its send if it was not
    received, and calls [wg.Done]). *)
Theorem WaitOneOf_can_always_return
  (fn : raceFunc) (ctx : option ctxErr) (h0 : heap) (tr : list label)
  (s : race)
  (Hrun : run fn tr (enter ctx h0) = Some s)
  (Hwell : forall k a ce, actions fn !! k = Some a -> a (Some ce) <> None) :
  exists tr' s' r, run fn tr' s = Some s' /\ coord s' = Returned r.
Proof.
  destruct (coord s) as [idx| |r0|r0|r0] eqn:Ec;
    try (destruct (to_joining fn ctx h0 tr s Hrun)
           as (tr1 & s1 & r & Hr1 & Hc1 & Hd1);
         [intros r; rewrite Ec; discriminate|]).
  5: { exists [], s, r0. split; [reflexivity|exact Ec]. }
  all: assert (Hreach1 : run fn (tr ++ tr1) (enter ctx h0) = Some s1)
         by (rewrite run_app, Hrun; exact Hr1);
       pose proof (raceInv_run _ _ _ _ _ Hreach1) as [_ Hla1 _ _ _ _];
       rewrite Hc1 in Hla1;
       destruct (exit_all fn (length (executors s1)) Hwell s1 Hd1 Hla1
                   ltac:(lia)) as (tr2 & s2 & Hr2 & Hc2 & Hl2 & He2);
       assert (Hreach2 : run fn ((tr ++ tr1) ++ tr2) (enter ctx h0) = Some s2)
         by (rewrite run_app, Hreach1; exact Hr2);
       pose proof (raceInv_run _ _ _ _ _ Hreach2) as [Hwg2 _ _ _ _ _];
       assert (Hz : wg s2 = 0%nat)
         by (rewrite Hwg2; clear - He2 Hl2;
             assert (Hall : forall k, (k < length (executors s2))%nat ->
                                      executors s2 !! k = Some Exited)
               by (intros k Hk; apply He2; lia);
             clear He2 Hl2; induction (executors s2) as [|x l IHl];
             [reflexivity|];
             pose proof (Hall O ltac:(simpl; lia)) as H0; simpl in H0;
             injection H0 as ->; simpl; apply IHl; intros k Hk;
             apply (Hall (S k)); simpl; lia);
       exists (tr1 ++ tr2 ++ [DeferWait]);
       exists (setCoord (Returned r) s2), r;
       (split; [|reflexivity]);
       rewrite run_app, Hr1, run_app, Hr2; simpl;
       rewrite Hc2, Hc1, Hz; reflexivity.
Qed.

Lemma WaitOneOf_can_always_return_witness :
  exists tr' s' r,
    run {| waitIdx := None;
           actions := [fun c => option_map Some (option_map ctxError c)] |}
      tr'
      {| parent := None; derived := None; wg := 1; executors := [Running];
         coord := Selecting; mem := fun _ => 0 |} = Some s' /\
    coord s' = Returned r.
Proof.
  apply (WaitOneOf_can_always_return
           {| waitIdx := None;
              actions := [fun c => option_map Some (option_map ctxError c)] |}
           None (fun _ => 0) [Spawn; LoopExit]).
  - reflexivity.
  - intros [|k] a ce; simpl; [intros [= <-]; discriminate|].
    destruct k; discriminate.
Defined.
